(** * Text repair heuristic of the audio player ([src/App.tsx])

    A shallow embedding of [getBestEffortDecodedString], the helper that the
    player applies to every title, artist and album tag it extracts, together
    with the part of the host platform it calls: [TextDecoder] for the labels
    ['utf-8'] and ['shift-jis'], both constructed with [{ fatal: true }].

    JavaScript strings are sequences of 16-bit code units; a code unit is a [Z]
    and a string is a [list Z].  [charCodeAt], [&], [>>] and
    [String.fromCharCode] are written with [Z.land], [Z.shiftr] and [mod]. *)

From Stdlib Require Import ZArith List Bool Lia.
From Stdlib Require String Ascii QArith Qround DecimalN.
Import ListNotations.
Local Open Scope Z_scope.

(** ** Strings *)

Definition code_unit : Type := Z.
Definition str : Type := list code_unit.

Definition is_code_unit (c : Z) : Prop := 0 <= c < 65536.
Definition wf_string (s : str) : Prop := Forall is_code_unit s.

(** [String.fromCharCode] converts its argument with ToUint16. *)
Definition fromCharCode (n : Z) : code_unit := n mod 65536.

(** Storing into a [Uint8Array] converts with ToUint8. *)
Definition ToUint8 (n : Z) : Z := n mod 256.

(** The values that reach the function, and that it can hand back. *)
Inductive value : Type :=
| undefined
| null
| Str (s : str).

(** ToBoolean: [undefined], [null] and the empty string are falsy. *)
Definition truthy (v : value) : bool :=
  match v with
  | undefined => false
  | null => false
  | Str [] => false
  | Str (_ :: _) => true
  end.

(** [a !== b] on strings compares code units. *)
Definition str_eqb (a b : str) : bool :=
  if list_eq_dec Z.eq_dec a b then true else false.

(** ** The host's [TextDecoder]

    The decoders follow the WHATWG Encoding Standard, which is what
    [new TextDecoder(label, { fatal: true }).decode(buffer)] runs: a handler is
    fed the bytes one by one and then end-of-queue; in fatal mode the first
    [error] makes [decode] throw a [TypeError]. *)
Module Encoding.

Inductive encoding : Type :=
| utf_8
| shift_jis.

Inductive handler_result (S : Type) : Type :=
| finished
| error
| continue (st : S)
| code_point (cp : Z) (st : S).
Arguments finished {S}.
Arguments error {S}.
Arguments continue {S} st.
Arguments code_point {S} cp st.

Definition in_range (lo b hi : Z) : bool := (lo <=? b) && (b <=? hi).

(** Runs a handler over the whole input; [None] is the fatal error. *)
Fixpoint run_decoder {S : Type} (handler : S -> option Z -> handler_result S)
  (st : S) (input : list Z) : option (list Z) :=
  match input with
  | [] =>
      match handler st None with
      | finished => Some []
      | _ => None
      end
  | byte :: rest =>
      match handler st (Some byte) with
      | finished => Some []
      | error => None
      | continue st' => run_decoder handler st' rest
      | code_point cp st' => option_map (cons cp) (run_decoder handler st' rest)
      end
  end.

(** *** UTF-8 decoder *)

Record utf8_state : Type := mk_utf8_state {
  utf8_code_point : Z;
  utf8_bytes_seen : Z;
  utf8_bytes_needed : Z;
  utf8_lower_boundary : Z;
  utf8_upper_boundary : Z
}.

Definition utf8_initial : utf8_state := mk_utf8_state 0 0 0 0x80 0xBF.

Definition utf8_handler (st : utf8_state) (item : option Z)
  : handler_result utf8_state :=
  match item with
  | None => if utf8_bytes_needed st =? 0 then finished else error
  | Some byte =>
      if utf8_bytes_needed st =? 0 then
        if in_range 0x00 byte 0x7F then code_point byte st
        else if in_range 0xC2 byte 0xDF then
          continue (mk_utf8_state (Z.land byte 0x1F) (utf8_bytes_seen st) 1
                      (utf8_lower_boundary st) (utf8_upper_boundary st))
        else if in_range 0xE0 byte 0xEF then
          continue (mk_utf8_state (Z.land byte 0xF) (utf8_bytes_seen st) 2
                      (if byte =? 0xE0 then 0xA0 else utf8_lower_boundary st)
                      (if byte =? 0xED then 0x9F else utf8_upper_boundary st))
        else if in_range 0xF0 byte 0xF4 then
          continue (mk_utf8_state (Z.land byte 0x7) (utf8_bytes_seen st) 3
                      (if byte =? 0xF0 then 0x90 else utf8_lower_boundary st)
                      (if byte =? 0xF4 then 0x8F else utf8_upper_boundary st))
        else error
      else if negb (in_range (utf8_lower_boundary st) byte (utf8_upper_boundary st))
      then error
      else
        let cp := Z.lor (Z.shiftl (utf8_code_point st) 6) (Z.land byte 0x3F) in
        let seen := utf8_bytes_seen st + 1 in
        if seen =? utf8_bytes_needed st then code_point cp utf8_initial
        else continue (mk_utf8_state cp seen (utf8_bytes_needed st) 0x80 0xBF)
  end.

Definition utf8_decode (input : list Z) : option (list Z) :=
  run_decoder utf8_handler utf8_initial input.

(** *** Shift_JIS decoder

    The state is the pending lead byte ([0] when there is none).  The index
    jis0208 is a table of the host; the decoder takes it as a parameter. *)
Section ShiftJIS.

Variable index_jis0208 : Z -> option Z.

Definition sjis_handler (lead : Z) (item : option Z) : handler_result Z :=
  match item with
  | None => if lead =? 0 then finished else error
  | Some byte =>
      if negb (lead =? 0) then
        let offset := if byte <? 0x7F then 0x40 else 0x41 in
        let lead_offset := if lead <? 0xA0 then 0x81 else 0xC1 in
        if in_range 0x40 byte 0x7E || in_range 0x80 byte 0xFC then
          let pointer := (lead - lead_offset) * 188 + byte - offset in
          if in_range 8836 pointer 10715 then code_point (0xE000 - 8836 + pointer) 0
          else
            match index_jis0208 pointer with
            | Some cp => code_point cp 0
            | None => error
            end
        else error
      else if in_range 0x00 byte 0x7F || (byte =? 0x80) then code_point byte 0
      else if in_range 0xA1 byte 0xDF then code_point (0xFF61 - 0xA1 + byte) 0
      else if in_range 0x81 byte 0x9F || in_range 0xE0 byte 0xFC then continue byte
      else error
  end.

Definition sjis_decode (input : list Z) : option (list Z) :=
  run_decoder sjis_handler 0 input.

(** *** Output of [decode] *)

(** A code point becomes one code unit, or a surrogate pair above the BMP. *)
Definition utf16_units (cp : Z) : str :=
  if cp <? 0x10000 then [cp]
  else [0xD800 + Z.shiftr (cp - 0x10000) 10; 0xDC00 + Z.land (cp - 0x10000) 0x3FF].

Definition code_points_to_string (cps : list Z) : str := flat_map utf16_units cps.

(** With [ignoreBOM] left at its default [false], a leading U+FEFF of the
    UTF-8 decoder's output is dropped; Shift_JIS output is kept whole. *)
Definition serialize (label : encoding) (cps : list Z) : list Z :=
  match label, cps with
  | utf_8, cp :: rest => if cp =? 0xFEFF then rest else cps
  | _, _ => cps
  end.

Definition run_encoding (label : encoding) (input : list Z) : option (list Z) :=
  match label with
  | utf_8 => utf8_decode input
  | shift_jis => sjis_decode input
  end.

(** [new TextDecoder(label, { fatal: true }).decode(buffer)]: [Some] of the
    decoded string, or [None] when it throws. *)
Definition TextDecoder_decode (label : encoding) (buffer : list Z) : option str :=
  option_map (fun cps => code_points_to_string (serialize label cps))
    (run_encoding label buffer).

End ShiftJIS.

(** A few rows of the index jis0208, enough to run the decoder on examples:
    pointers 283 and 285 are the hiragana of row 4, 1410 is the first kanji. *)
Definition index_jis0208_sample (pointer : Z) : option Z :=
  if pointer =? 283 then Some 0x3042
  else if pointer =? 285 then Some 0x3044
  else if pointer =? 1410 then Some 0x4E9C
  else None.

End Encoding.
Import Encoding.

(** ** Control flow of the function body

    A statement completes normally, executes [return v], or throws.  Each
    computation also records which decoders it called, in order. *)

Inductive completion (A : Type) : Type :=
| Normal (a : A)
| Return (v : value)
| Throw.
Arguments Normal {A} a.
Arguments Return {A} v.
Arguments Throw {A}.

Definition M (A : Type) : Type := (list encoding * completion A)%type.

Definition ret {A : Type} (a : A) : M A := ([], Normal a).

Definition return_ {A : Type} (v : value) : M A := ([], Return v).

Definition bind {A B : Type} (m : M A) (k : A -> M B) : M B :=
  match m with
  | (calls, Normal a) => let (calls', c) := k a in (calls ++ calls', c)
  | (calls, Return v) => (calls, Return v)
  | (calls, Throw) => (calls, Throw)
  end.

Notation "x <- m ;; k" := (bind m (fun x => k))
  (at level 61, m at next level, right associativity).
Notation "m ;;; k" := (bind m (fun _ => k))
  (at level 61, right associativity).

(** [try { body } catch (e) { handler }] *)
Definition try_catch {A : Type} (body handler : M A) : M A :=
  match body with
  | (calls, Throw) => let (calls', c) := handler in (calls ++ calls', c)
  | _ => body
  end.

(** What a call of the function gives its caller. *)
Inductive result : Type :=
| Value (v : value)
| Exception.

Definition outcome (c : completion Empty_set) : result :=
  match c with
  | Normal e => match e with end
  | Return v => Value v
  | Throw => Exception
  end.

(** ** [getBestEffortDecodedString] *)

Definition low_byte (charCode : Z) : Z := Z.land charCode 0x00FF.
Definition high_byte (charCode : Z) : Z := Z.shiftr charCode 8.

(** Step 1 accepts a code unit when its low byte is zero and its high byte is
    printable ASCII. *)
Definition high_byte_ascii (charCode : Z) : Prop :=
  low_byte charCode = 0 /\ 0x20 <= high_byte charCode <= 0x7E.

Definition is_byte (c : Z) : Prop := 0 <= c <= 255.

Definition is_ascii (c : Z) : Prop := 0 <= c <= 0x7F.

(** The first loop: [(isMisinterpretedUTF16BE, reconstructed)] when it ends,
    by exhaustion or by [break]. *)
Fixpoint scan_misinterpreted (text : str) (reconstructed : str) : bool * str :=
  match text with
  | [] => (true, reconstructed)
  | charCode :: rest =>
      if (low_byte charCode =? 0)
         && (high_byte charCode >=? 0x20) && (high_byte charCode <=? 0x7E)
      then scan_misinterpreted rest (reconstructed ++ [fromCharCode (high_byte charCode)])
      else (false, reconstructed)
  end.

(** The second loop: [isPotentiallyGarbled] when it ends. *)
Fixpoint isPotentiallyGarbled (text : str) : bool :=
  match text with
  | [] => true
  | charCode :: rest => if charCode >? 255 then false else isPotentiallyGarbled rest
  end.

(** The third loop: the [Uint8Array] filled from the code units. *)
Definition fill_buffer (text : str) : list Z := map ToUint8 text.

Section App.

Variable index_jis0208 : Z -> option Z.

Definition decode (label : encoding) (buffer : list Z) : M str :=
  ([label],
   match TextDecoder_decode index_jis0208 label buffer with
   | Some s => Normal s
   | None => Throw
   end).

Definition getBestEffortDecodedString_body (text : value) : M Empty_set :=
  if negb (truthy text) then return_ (Str []) else
  match text with
  | undefined | null => return_ text (* falsy: taken care of by the line above *)
  | Str s =>
      try_catch
        (let '(isMisinterpretedUTF16BE, reconstructed) := scan_misinterpreted s [] in
         if isMisinterpretedUTF16BE && truthy (Str reconstructed)
         then return_ (Str reconstructed) else
         if negb (isPotentiallyGarbled s) then return_ text else
         let buffer := fill_buffer s in
         try_catch
           (decodedUtf8 <- decode utf_8 buffer ;;
            if negb (str_eqb decodedUtf8 s) then return_ (Str decodedUtf8) else ret tt)
           (ret tt) ;;;
         try_catch
           (decodedSjis <- decode shift_jis buffer ;;
            if negb (str_eqb decodedSjis s) then return_ (Str decodedSjis) else ret tt)
           (ret tt))
        (ret tt) ;;;
      return_ text
  end.

Definition getBestEffortDecodedString (text : value) : result :=
  outcome (snd (getBestEffortDecodedString_body text)).

(** The decoders the call ran, in order. *)
Definition decode_attempts (text : value) : list encoding :=
  fst (getBestEffortDecodedString_body text).

(** [getBestEffortDecodedString(getBestEffortDecodedString(text))]: an
    exception of the inner call would propagate. *)
Definition repair_twice (text : value) : result :=
  match getBestEffortDecodedString text with
  | Value v => getBestEffortDecodedString v
  | Exception => Exception
  end.

End App.

(** * The rest of [src/App.tsx]: tags, playlist, artwork dialog, time display *)

(** ** String literals of the source *)
Module Literal.
Import Stdlib.Strings.String Stdlib.Strings.Ascii.

Fixpoint lit (s : string) : str :=
  match s with
  | EmptyString => []
  | String a s' => Z.of_nat (nat_of_ascii a) :: lit s'
  end.

Definition ID3v2_4 : str := lit "ID3v2.4".
Definition ID3v2_3 : str := lit "ID3v2.3".
Definition ID3v2_2 : str := lit "ID3v2.2".
Definition TIT2 : str := lit "TIT2".
Definition TPE1 : str := lit "TPE1".
Definition TALB : str := lit "TALB".
Definition Unknown_Title : str := lit "Unknown Title".
Definition Unknown_Artist : str := lit "Unknown Artist".
Definition Unknown_Album : str := lit "Unknown Album".
Definition http : str := lit "http".
Definition blob_colon : str := lit "blob:".
Definition invalid_url : str :=
  lit "Please enter a valid URL starting with http or https.".
Definition could_not_load : str := lit "Could not load image. Check the URL.".
Definition zero_time : str := lit "00:00".
Definition colon : str := lit ":".
Definition zero : str := lit "0".
Definition text_undefined : str := lit "undefined".
Definition text_null : str := lit "null".
Definition text_object : str := lit "[object Object]".
Definition text_NaN : str := lit "NaN".
Definition text_Infinity : str := lit "Infinity".

End Literal.

(** [s.startsWith(prefix)] *)
Definition startsWith (s prefix : str) : bool :=
  str_eqb (firstn (length prefix) s) prefix.

(** [a[i]] on an array: [None] is [undefined], also out of range. *)
Definition array_get {A : Type} (a : list A) (i : Z) : option A :=
  if i <? 0 then None else nth_error a (Z.to_nat i).

(** ** Native tags ([getNativeTag] inside [handleFileChange]) *)

(** A native tag's [value: any], in the shapes the metadata parser gives a
    text frame: a string (or [undefined], [null]), or an object that may carry
    a [text] property. *)
Inductive tag_value : Type :=
| Primitive (v : value)
| Object (text : option value).

Record native_tag : Type := mk_native_tag {
  tag_id : str;
  tag_val : tag_value
}.

(** [mm.native] is keyed by tag type; [mm.common] holds the merged fields. *)
Record metadata : Type := mk_metadata {
  native : str -> option (list native_tag);
  common_title : value;
  common_artist : value;
  common_album : value
}.

Definition tag_value_truthy (v : tag_value) : bool :=
  match v with
  | Primitive p => truthy p
  | Object _ => true
  end.

(** [String(v)] *)
Definition String_of (v : value) : str :=
  match v with
  | undefined => Literal.text_undefined
  | null => Literal.text_null
  | Str s => s
  end.

(** The string that [getNativeTag] returns for a truthy [tag.value]. *)
Definition tag_text (v : tag_value) : str :=
  match v with
  | Object (Some text) => String_of text
  | Object None => Literal.text_object
  | Primitive p => String_of p
  end.

Definition tagPriority : list str :=
  [Literal.ID3v2_4; Literal.ID3v2_3; Literal.ID3v2_2].

(** The [for (const tagType of tagPriority)] loop, from [priority] on. *)
Fixpoint getNativeTag_from (mm : metadata) (tagId : str) (priority : list str) : value :=
  match priority with
  | [] => undefined
  | tagType :: rest =>
      match native mm tagType with
      | Some nativeTags =>
          match find (fun t => str_eqb (tag_id t) tagId) nativeTags with
          | Some tag =>
              if tag_value_truthy (tag_val tag) then Str (tag_text (tag_val tag))
              else getNativeTag_from mm tagId rest
          | None => getNativeTag_from mm tagId rest
          end
      | None => getNativeTag_from mm tagId rest
      end
  end.

Definition getNativeTag (mm : metadata) (tagId : str) : value :=
  getNativeTag_from mm tagId tagPriority.

(** A tag type is usable for [tagId] when [mm.native] has a list for it and
    the first tag of that list with this id has a truthy value. *)
Definition usable_tag (mm : metadata) (tagId tagType : str) (tag : native_tag) : Prop :=
  exists nativeTags,
    native mm tagType = Some nativeTags
    /\ find (fun t => str_eqb (tag_id t) tagId) nativeTags = Some tag
    /\ tag_value_truthy (tag_val tag) = true.

(** [a || b] *)
Definition or_else (a b : value) : value := if truthy a then a else b.

Section TrackText.

Variable index_jis0208 : Z -> option Z.

(** [decodedId3 || decodedCommon || fallback], both decoded before. *)
Definition track_text (mm : metadata) (tagId : str) (common : value) (fallback : str)
  : result :=
  match getBestEffortDecodedString index_jis0208 (getNativeTag mm tagId) with
  | Exception => Exception
  | Value decodedId3 =>
      match getBestEffortDecodedString index_jis0208 common with
      | Exception => Exception
      | Value decodedCommon =>
          Value (or_else (or_else decodedId3 decodedCommon) (Str fallback))
      end
  end.

Definition track_title (mm : metadata) : result :=
  track_text mm Literal.TIT2 (common_title mm) Literal.Unknown_Title.

Definition track_artist (mm : metadata) : result :=
  track_text mm Literal.TPE1 (common_artist mm) Literal.Unknown_Artist.

Definition track_album (mm : metadata) : result :=
  track_text mm Literal.TALB (common_album mm) Literal.Unknown_Album.

End TrackText.

(** ** Numbers *)

(** A JavaScript number: [NaN], an infinity, or a finite value.  The finite
    doubles are rationals; [Math.floor], [<] and [%] are exact on them, and
    so is the division of an integer below 2^53 by 60 once floored. *)
Inductive number : Type :=
| NaN
| Infinity
| NegInfinity
| Finite (x : QArith_base.Q).

(** ** The playlist ([App]) *)
Module Player.

Record Track : Type := mk_Track {
  id : str;
  blobUrl : str;
  albumArtUrl : option str;
  title : str;
  artist : str;
  album : str;
  fileSize : number;
  duration : number;
  bitrate : number;
  sampleRate : number;
  bitsPerSample : number
}.

(** The state that the playlist handlers read and write. *)
Record state : Type := mk_state {
  playlist : list Track;
  currentTrackIndex : option Z;
  isArtModalOpen : bool
}.

Definition initial : state := mk_state [] None false.

Definition playlist_length (st : state) : Z := Z.of_nat (length (playlist st)).

Definition index_in_range (st : state) : Prop :=
  match currentTrackIndex st with
  | Some i => 0 <= i < playlist_length st
  | None => True
  end.

Definition currentTrack (st : state) : option Track :=
  match currentTrackIndex st with
  | Some i => array_get (playlist st) i
  | None => None
  end.

Definition playTrack (st : state) (index : Z) : state :=
  if (index >=? 0) && (index <? playlist_length st)
  then mk_state (playlist st) (Some index) (isArtModalOpen st)
  else st.

(** [%] is the remainder that takes the sign of the dividend. *)
Definition handleNextTrack (st : state) : state :=
  if playlist_length st =? 0 then st else
  match currentTrackIndex st with
  | None => st
  | Some cur => playTrack st (Z.rem (cur + 1) (playlist_length st))
  end.

Definition handlePrevTrack (st : state) : state :=
  if playlist_length st =? 0 then st else
  match currentTrackIndex st with
  | None => st
  | Some cur => playTrack st (Z.rem (cur - 1 + playlist_length st) (playlist_length st))
  end.

Definition set_albumArtUrl (t : Track) (url : option str) : Track :=
  mk_Track (id t) (blobUrl t) url (title t) (artist t) (album t)
    (fileSize t) (duration t) (bitrate t) (sampleRate t) (bitsPerSample t).

(** [a[i] = x] on a copy of the array, for [i] in range. *)
Fixpoint array_set {A : Type} (a : list A) (i : nat) (x : A) : list A :=
  match a, i with
  | [], _ => []
  | _ :: rest, O => x :: rest
  | y :: rest, S i' => y :: array_set rest i' x
  end.

Definition handleApplyArt (st : state) (newArtUrl : str) : state :=
  match currentTrackIndex st with
  | None => st
  | Some i =>
      mk_state
        (match array_get (playlist st) i with
         | Some trackToUpdate =>
             array_set (playlist st) (Z.to_nat i)
               (set_albumArtUrl trackToUpdate (Some newArtUrl))
         | None => playlist st
         end)
        (Some i) false
  end.

(** [handleFileChange], before the files are parsed ... *)
Definition playlist_cleared (st : state) : state :=
  mk_state [] None (isArtModalOpen st).

(** ... and after: [setPlaylist(newTracks)] and the guarded
    [setCurrentTrackIndex(0)]. *)
Definition playlist_loaded (st : state) (newTracks : list Track) : state :=
  mk_state newTracks
    (if Z.of_nat (length newTracks) >? 0 then Some 0 else currentTrackIndex st)
    (isArtModalOpen st).

(** The URLs that the [playlist.forEach] of the cleanup and of
    [handleFileChange] passes to [URL.revokeObjectURL], in order. *)
Definition revoked_urls (tracks : list Track) : list str :=
  flat_map
    (fun track =>
       (if startsWith (blobUrl track) Literal.blob_colon then [blobUrl track] else [])
       ++ match albumArtUrl track with
          | Some url =>
              if truthy (Str url) && startsWith url Literal.blob_colon
              then [url] else []
          | None => []
          end)
    tracks.

(** What one event can do to the state.  [handleFileChange] returns at once
    when no file was chosen, so the tracks it loads are never none. *)
Inductive step : state -> state -> Prop :=
| step_playTrack st index : step st (playTrack st index)
| step_next st : step st (handleNextTrack st)
| step_prev st : step st (handlePrevTrack st)
| step_applyArt st url : step st (handleApplyArt st url)
| step_cleared st : step st (playlist_cleared st)
| step_loaded st newTracks :
    newTracks <> [] -> step st (playlist_loaded st newTracks).

Inductive reachable : state -> Prop :=
| reachable_initial : reachable initial
| reachable_step st st' : reachable st -> step st st' -> reachable st'.

End Player.

(** ** The artwork dialog ([SetArtworkModal]) *)
Module SetArtworkModal.

Record state : Type := mk_state {
  imageUrl : str;
  previewUrl : str;
  error : str;
  isValidImage : bool
}.

Definition initial : state := mk_state [] [] [] false.

(** The effect on [isOpen]: closing resets the four fields. *)
Definition closed (st : state) : state := initial.

(** [onChange] of the input: [setImageUrl], and the effect on [imageUrl]
    starts with [setIsValidImage(false)]; an unchanged value re-renders
    nothing. *)
Definition onChange (st : state) (value : str) : state :=
  if str_eqb value (imageUrl st) then st
  else mk_state value (previewUrl st) (error st) false.

(** The body of the 300 ms timer of that effect. *)
Definition timer_fired (st : state) : state :=
  if startsWith (imageUrl st) Literal.http
  then mk_state (imageUrl st) (imageUrl st) [] (isValidImage st)
  else if truthy (Str (imageUrl st))
  then mk_state (imageUrl st) [] Literal.invalid_url (isValidImage st)
  else mk_state (imageUrl st) [] [] (isValidImage st).

Definition handleImageLoad (st : state) : state :=
  mk_state (imageUrl st) (previewUrl st) [] true.

Definition handleImageError (st : state) : state :=
  mk_state (imageUrl st) (previewUrl st)
    (if truthy (Str (imageUrl st)) then Literal.could_not_load else error st)
    false.

(** The "Use This Image" button: disabled unless the image is valid;
    otherwise it calls [onApply(previewUrl)]. *)
Definition use_this_image (st : state) : option str :=
  if isValidImage st then Some (previewUrl st) else None.

Inductive step : state -> state -> Prop :=
| step_closed st : step st (closed st)
| step_onChange st value : step st (onChange st value)
| step_timer st : step st (timer_fired st)
| step_load st : step st (handleImageLoad st)
| step_error st : step st (handleImageError st).

Inductive reachable : state -> Prop :=
| reachable_initial : reachable initial
| reachable_step st st' : reachable st -> step st st' -> reachable st'.

End SetArtworkModal.

(** What the dialog lets through as a preview. *)
Definition preview_ok (url : str) : Prop :=
  url = [] \/ startsWith url Literal.http = true.

(** ** The time display ([formatTime]) *)

(** [s.padStart(targetLength, padString)] *)
Definition padStart (s : str) (targetLength : nat) (padString : str) : str :=
  if (targetLength <=? length s)%nat then s
  else
    match padString with
    | [] => s
    | _ :: _ =>
        firstn (targetLength - length s)
          (concat (repeat padString (targetLength - length s))) ++ s
    end.

Fixpoint digits_of_uint (d : Decimal.uint) : str :=
  match d with
  | Decimal.Nil => []
  | Decimal.D0 d' => 48 :: digits_of_uint d'
  | Decimal.D1 d' => 49 :: digits_of_uint d'
  | Decimal.D2 d' => 50 :: digits_of_uint d'
  | Decimal.D3 d' => 51 :: digits_of_uint d'
  | Decimal.D4 d' => 52 :: digits_of_uint d'
  | Decimal.D5 d' => 53 :: digits_of_uint d'
  | Decimal.D6 d' => 54 :: digits_of_uint d'
  | Decimal.D7 d' => 55 :: digits_of_uint d'
  | Decimal.D8 d' => 56 :: digits_of_uint d'
  | Decimal.D9 d' => 57 :: digits_of_uint d'
  end.

(** [n.toString()] for an integer [0 <= n < 10^21]: its decimal digits. *)
Definition integer_toString (n : Z) : str := digits_of_uint (N.to_uint (Z.to_N n)).

(** [formatTime].  An infinite [seconds] passes both guards: its floor is
    [Infinity], and [Infinity % 60] is [NaN]. *)
Definition formatTime (seconds : number) : str :=
  match seconds with
  | NaN => Literal.zero_time
  | NegInfinity => Literal.zero_time
  | Infinity =>
      padStart Literal.text_Infinity 2 Literal.zero ++ Literal.colon
      ++ padStart Literal.text_NaN 2 Literal.zero
  | Finite x =>
      if QArith_base.Qlt_le_dec x (QArith_base.inject_Z 0) then Literal.zero_time
      else
        let floorSeconds := Qround.Qfloor x in
        let min := Qround.Qfloor (QArith_base.Qdiv (QArith_base.inject_Z floorSeconds)
                                    (QArith_base.inject_Z 60)) in
        let sec := Z.rem floorSeconds 60 in
        padStart (integer_toString min) 2 Literal.zero ++ Literal.colon
        ++ padStart (integer_toString sec) 2 Literal.zero
  end.

(** * Properties *)

(** ** The three loops *)

Lemma high_byte_ascii_test (c : Z) :
  (low_byte c =? 0) && (high_byte c >=? 0x20) && (high_byte c <=? 0x7E) = true
  <-> high_byte_ascii c.
Proof.
  unfold high_byte_ascii.
  rewrite !andb_true_iff, Z.eqb_eq, Z.geb_le, Z.leb_le. tauto.
Qed.

Lemma scan_misinterpreted_all (s acc : str) :
  Forall high_byte_ascii s ->
  scan_misinterpreted s acc = (true, acc ++ map high_byte s).
Proof.
  intros H. revert acc.
  induction H as [|c s Hc _ IH]; intros acc; simpl.
  - now rewrite app_nil_r.
  - rewrite (proj2 (high_byte_ascii_test c) Hc).
    rewrite IH, <- app_assoc. simpl.
    unfold fromCharCode. rewrite Z.mod_small; [reflexivity|].
    destruct Hc as [_ Hc]. lia.
Qed.

Lemma scan_misinterpreted_break (s acc : str) :
  ~ Forall high_byte_ascii s ->
  fst (scan_misinterpreted s acc) = false.
Proof.
  revert acc. induction s as [|c s IH]; intros acc Hn; simpl.
  - destruct Hn. constructor.
  - destruct ((low_byte c =? 0) && (high_byte c >=? 32) && (high_byte c <=? 126))
      eqn:E; [|reflexivity].
    apply IH. intros Hs. apply Hn. constructor; [|exact Hs].
    now apply high_byte_ascii_test.
Qed.

Lemma isPotentiallyGarbled_true (s : str) :
  isPotentiallyGarbled s = true <-> Forall (fun c => c <= 255) s.
Proof.
  induction s as [|c s IH]; simpl.
  - split; [constructor | reflexivity].
  - destruct (c >? 255) eqn:E.
    + split; [discriminate|]. intros H. inversion H; subst.
      apply Z.gtb_lt in E. lia.
    + rewrite IH. split; intros H.
      * constructor; [|exact H]. pose proof (Zgt_cases c 255) as G.
        rewrite E in G. exact G.
      * now inversion H.
Qed.

Lemma isPotentiallyGarbled_false (s : str) :
  Exists (fun c => 255 < c) s -> isPotentiallyGarbled s = false.
Proof.
  intros H. destruct (isPotentiallyGarbled s) eqn:E; [|reflexivity].
  apply isPotentiallyGarbled_true in E.
  apply Exists_exists in H. destruct H as [c [Hin Hc]].
  rewrite Forall_forall in E. specialize (E c Hin). simpl in E. lia.
Qed.

Lemma high_byte_small (c : Z) : c <= 255 -> high_byte c <= 0.
Proof.
  intros H. unfold high_byte. rewrite Z.shiftr_div_pow2 by lia.
  change (2 ^ 8) with 256.
  assert (c / 256 < 1) by (apply Z.div_lt_upper_bound; lia). lia.
Qed.

(** A string of bytes never passes step 1: its first unit already fails. *)
Lemma scan_misinterpreted_bytes (c : Z) (s : str) :
  c <= 255 -> scan_misinterpreted (c :: s) [] = (false, []).
Proof.
  intros H. simpl.
  pose proof (high_byte_small c H) as Hh.
  destruct (high_byte c >=? 32) eqn:E.
  - apply Z.geb_le in E. lia.
  - now rewrite andb_false_r.
Qed.

Lemma fill_buffer_bytes (s : str) : Forall is_byte s -> fill_buffer s = s.
Proof.
  unfold fill_buffer. induction 1 as [|c s Hc _ IH]; simpl; [reflexivity|].
  rewrite IH. unfold ToUint8. rewrite Z.mod_small; [reflexivity|].
  unfold is_byte in Hc. lia.
Qed.

Lemma bytes_at_most_255 (s : str) :
  Forall is_byte s -> Forall (fun c => c <= 255) s.
Proof.
  apply Forall_impl. unfold is_byte. intros c Hc. lia.
Qed.

Lemma str_eqb_true (a b : str) : str_eqb a b = true <-> a = b.
Proof.
  unfold str_eqb. destruct (list_eq_dec Z.eq_dec a b); split; congruence.
Qed.

Lemma str_eqb_false (a b : str) : str_eqb a b = false <-> a <> b.
Proof.
  unfold str_eqb. destruct (list_eq_dec Z.eq_dec a b); split; congruence.
Qed.

(** ** The function, branch by branch *)

Section Branches.

Variable index_jis0208 : Z -> option Z.

Local Abbreviation body := (getBestEffortDecodedString_body index_jis0208).
Local Abbreviation TextDecode := (TextDecoder_decode index_jis0208).

Lemma body_step1 (s : str) :
  s <> [] -> Forall high_byte_ascii s ->
  body (Str s) = ([], Return (Str (map high_byte s))).
Proof.
  intros Hne Hall. unfold getBestEffortDecodedString_body.
  destruct s as [|c s]; [congruence|].
  cbn [truthy negb].
  rewrite (scan_misinterpreted_all (c :: s) [] Hall).
  reflexivity.
Qed.

Lemma body_wide (s : str) :
  ~ Forall high_byte_ascii s -> Exists (fun c => 255 < c) s ->
  body (Str s) = ([], Return (Str s)).
Proof.
  intros Hno Hwide. unfold getBestEffortDecodedString_body.
  destruct s as [|c s]; [inversion Hwide|].
  cbn [truthy negb].
  pose proof (scan_misinterpreted_break (c :: s) [] Hno) as Hb.
  destruct (scan_misinterpreted (c :: s) []) as [flag rec]. simpl in Hb. subst flag.
  rewrite (isPotentiallyGarbled_false _ Hwide). reflexivity.
Qed.

(** For a non-empty string of bytes both loops fall through and the UTF-8
    attempt decides, unless it throws or gives the input back. *)
Lemma body_bytes_utf8 (s d : str) :
  s <> [] -> Forall (fun c => c <= 255) s ->
  TextDecode utf_8 (fill_buffer s) = Some d -> d <> s ->
  body (Str s) = ([utf_8], Return (Str d)).
Proof.
  intros Hne Hb Hd Hds. unfold getBestEffortDecodedString_body.
  destruct s as [|c s]; [congruence|].
  cbn [truthy negb].
  rewrite scan_misinterpreted_bytes by (inversion Hb; assumption).
  cbn [andb].
  rewrite (proj2 (isPotentiallyGarbled_true (c :: s)) Hb).
  cbn [negb]. unfold decode. rewrite Hd.
  apply str_eqb_false in Hds. cbn. rewrite Hds. reflexivity.
Qed.

(** Otherwise the Shift-JIS attempt follows, and the input is what remains
    when that one throws or also gives the input back. *)
Lemma body_bytes_sjis (s : str) :
  s <> [] -> Forall (fun c => c <= 255) s ->
  TextDecode utf_8 (fill_buffer s) = None \/ TextDecode utf_8 (fill_buffer s) = Some s ->
  body (Str s) =
  ([utf_8; shift_jis],
   Return (Str match TextDecode shift_jis (fill_buffer s) with
               | Some d => d
               | None => s
               end)).
Proof.
  intros Hne Hb H8. unfold getBestEffortDecodedString_body.
  destruct s as [|c s]; [congruence|].
  cbn [truthy negb].
  rewrite scan_misinterpreted_bytes by (inversion Hb; assumption).
  cbn [andb].
  rewrite (proj2 (isPotentiallyGarbled_true (c :: s)) Hb).
  cbn [negb]. unfold decode.
  assert (Hself : str_eqb (c :: s) (c :: s) = true) by now apply str_eqb_true.
  destruct (TextDecode shift_jis (fill_buffer (c :: s))) as [dj|];
    [destruct (str_eqb dj (c :: s)) eqn:Ej|];
    (destruct H8 as [H8|H8]; rewrite H8; cbn; rewrite ?Hself, ?Ej; cbn;
     rewrite ?Ej; try reflexivity).
  all: apply str_eqb_true in Ej; subst dj; reflexivity.
Qed.

End Branches.

(** ** The decoders never turn bytes into nothing, but for the byte order mark *)

Lemma land_shiftl_small (a c n : Z) :
  0 <= n -> 0 <= c < 2 ^ n -> Z.land (Z.shiftl a n) c = 0.
Proof.
  intros Hn Hc. apply Z.bits_inj'. intros i Hi.
  rewrite Z.land_spec, Z.bits_0.
  destruct (Z.lt_ge_cases i n) as [Hlt|Hge].
  - now rewrite Z.shiftl_spec_low.
  - rewrite <- (Z.mod_small c (2 ^ n)) by exact Hc.
    rewrite Z.mod_pow2_bits_high by lia. apply andb_false_r.
Qed.

Lemma lor_shiftl_6 (a c : Z) :
  0 <= c < 64 -> Z.lor (Z.shiftl a 6) c = a * 64 + c.
Proof.
  intros Hc.
  pose proof (Z.add_lor_land (Z.shiftl a 6) c) as H.
  assert (H0 : Z.land (Z.shiftl a 6) c = 0).
  { apply land_shiftl_small; [lia|]. change (2 ^ 6) with 64. exact Hc. }
  rewrite H0 in H.
  rewrite Z.shiftl_mul_pow2 in * by lia. change (2 ^ 6) with 64 in *. lia.
Qed.

Lemma land_low_bits (b n base : Z) :
  0 <= n -> base mod 2 ^ n = 0 -> base <= b < base + 2 ^ n ->
  Z.land b (Z.ones n) = b - base.
Proof.
  intros Hn Hbase Hb. rewrite Z.land_ones by exact Hn.
  assert (Hpos : 0 < 2 ^ n) by (apply Z.pow_pos_nonneg; lia).
  replace b with ((b - base) + base) at 1 by lia.
  rewrite Z.add_mod, Hbase, Z.add_0_r, Z.mod_mod by lia.
  apply Z.mod_small. lia.
Qed.

Lemma in_range_spec (lo b hi : Z) : in_range lo b hi = true <-> lo <= b <= hi.
Proof. unfold in_range. rewrite andb_true_iff, !Z.leb_le. tauto. Qed.

Lemma in_range_false (lo b hi : Z) : in_range lo b hi = false <-> ~ lo <= b <= hi.
Proof.
  rewrite <- in_range_spec. destruct (in_range lo b hi); split; congruence.
Qed.

(** A decoder whose handler never finishes on a byte, and never finishes right
    after asking for more, gives at least one code point for one byte. *)
Lemma run_decoder_nonempty (S : Type) (handler : S -> option Z -> handler_result S) :
  (forall st b, handler st (Some b) <> finished) ->
  (forall st b st', handler st (Some b) = continue st' -> handler st' None <> finished) ->
  forall input st b cps,
    run_decoder handler st (b :: input) = Some cps -> cps <> [].
Proof.
  intros Hbyte Hpending. induction input as [|b' input IH]; intros st b cps H.
  - cbn [run_decoder] in H.
    destruct (handler st (Some b)) as [| |st'|cp st'] eqn:E.
    + now apply Hbyte in E.
    + discriminate.
    + apply Hpending in E. destruct (handler st' None); congruence.
    + destruct (handler st' None); cbn in H; congruence.
  - change (run_decoder handler st (b :: b' :: input))
      with (match handler st (Some b) with
            | finished => Some []
            | error => None
            | continue st' => run_decoder handler st' (b' :: input)
            | code_point cp st' =>
                option_map (cons cp) (run_decoder handler st' (b' :: input))
            end) in H.
    destruct (handler st (Some b)) as [| |st'|cp st'] eqn:E.
    + now apply Hbyte in E.
    + discriminate.
    + now apply IH in H.
    + destruct (run_decoder handler st' (b' :: input)); cbn in H; congruence.
Qed.

Lemma utf8_handler_byte (st : utf8_state) (b : Z) :
  utf8_handler st (Some b) <> finished.
Proof.
  unfold utf8_handler.
  repeat match goal with
         | |- context [if ?c then _ else _] => destruct c
         end; cbv zeta; try discriminate.
  all: destruct (_ =? _); discriminate.
Qed.

Lemma utf8_handler_pending (st : utf8_state) (b : Z) (st' : utf8_state) :
  utf8_handler st (Some b) = continue st' -> utf8_handler st' None <> finished.
Proof.
  unfold utf8_handler. intros H.
  assert (Hn : utf8_bytes_needed st' <> 0).
  { destruct (utf8_bytes_needed st =? 0) eqn:E0.
    - repeat match type of H with
             | context [if ?c then _ else _] => destruct c
             end; inversion H; subst; cbn; lia.
    - apply Z.eqb_neq in E0.
      destruct (negb _); [discriminate|]. cbv zeta in H.
      destruct (_ =? _); inversion H; subst; cbn; exact E0. }
  apply Z.eqb_neq in Hn. rewrite Hn. discriminate.
Qed.

Lemma utf8_decode_nonempty (b : Z) (input cps : list Z) :
  utf8_decode (b :: input) = Some cps -> cps <> [].
Proof.
  apply run_decoder_nonempty.
  - exact utf8_handler_byte.
  - exact utf8_handler_pending.
Qed.

Lemma sjis_handler_byte (idx : Z -> option Z) (lead b : Z) :
  sjis_handler idx lead (Some b) <> finished.
Proof.
  unfold sjis_handler.
  repeat match goal with
         | |- context [if ?c then _ else _] => destruct c
         | |- context [match idx ?p with _ => _ end] => destruct (idx p)
         end; cbv zeta; discriminate.
Qed.

Lemma sjis_handler_pending (idx : Z -> option Z) (lead b lead' : Z) :
  sjis_handler idx lead (Some b) = continue lead' ->
  sjis_handler idx lead' None <> finished.
Proof.
  unfold sjis_handler. intros H.
  assert (Hn : lead' <> 0).
  { destruct (negb (lead =? 0)).
    - cbv zeta in H.
      repeat match type of H with
             | context [if ?c then _ else _] => destruct c
             | context [match idx ?p with _ => _ end] => destruct (idx p)
             end; discriminate.
    - destruct (in_range 0 b 127 || (b =? 128)); [discriminate|].
      destruct (in_range 161 b 223); [discriminate|].
      destruct (in_range 129 b 159 || in_range 224 b 252) eqn:E; [|discriminate].
      inversion H; subst. apply orb_true_iff in E.
      rewrite !in_range_spec in E. lia. }
  apply Z.eqb_neq in Hn. rewrite Hn. discriminate.
Qed.

Lemma sjis_decode_nonempty (idx : Z -> option Z) (b : Z) (input cps : list Z) :
  sjis_decode idx (b :: input) = Some cps -> cps <> [].
Proof.
  apply run_decoder_nonempty.
  - exact (sjis_handler_byte idx).
  - exact (sjis_handler_pending idx).
Qed.

Lemma code_points_to_string_nonempty (cps : list Z) :
  cps <> [] -> code_points_to_string cps <> [].
Proof.
  destruct cps as [|cp cps]; [congruence|]. intros _.
  unfold code_points_to_string. cbn [flat_map]. unfold utf16_units.
  destruct (cp <? 65536); discriminate.
Qed.

(** One continuation byte, seen from a state that is waiting for it. *)
Lemma utf8_continuation (cp seen needed lo hi b : Z) (rest out : list Z) :
  needed <> 0 ->
  run_decoder utf8_handler (mk_utf8_state cp seen needed lo hi) (b :: rest) = Some out ->
  lo <= b <= hi /\
  if seen + 1 =? needed
  then exists out', out = Z.lor (Z.shiftl cp 6) (Z.land b 0x3F) :: out'
                    /\ utf8_decode rest = Some out'
  else run_decoder utf8_handler
         (mk_utf8_state (Z.lor (Z.shiftl cp 6) (Z.land b 0x3F)) (seen + 1) needed 0x80 0xBF)
         rest = Some out.
Proof.
  intros Hn H. cbn [run_decoder] in H.
  assert (Hh : utf8_handler (mk_utf8_state cp seen needed lo hi) (Some b) =
               if negb (in_range lo b hi) then error
               else if seen + 1 =? needed
                    then code_point (Z.lor (Z.shiftl cp 6) (Z.land b 0x3F)) utf8_initial
                    else continue (mk_utf8_state (Z.lor (Z.shiftl cp 6) (Z.land b 0x3F))
                                     (seen + 1) needed 0x80 0xBF)).
  { unfold utf8_handler.
    cbn [utf8_bytes_needed utf8_lower_boundary utf8_upper_boundary
         utf8_code_point utf8_bytes_seen].
    apply Z.eqb_neq in Hn. now rewrite Hn. }
  rewrite Hh in H. clear Hh.
  destruct (in_range lo b hi) eqn:Er; cbn [negb] in H; [|discriminate].
  apply in_range_spec in Er. split; [exact Er|].
  cbv zeta in H. destruct (seen + 1 =? needed).
  - unfold utf8_decode.
    destruct (run_decoder utf8_handler utf8_initial rest) as [out'|];
      cbn in H; [|discriminate].
    inversion H. eauto.
  - exact H.
Qed.

Lemma utf8_pending_end (cp seen needed lo hi : Z) :
  needed <> 0 ->
  run_decoder utf8_handler (mk_utf8_state cp seen needed lo hi) [] = None.
Proof.
  intros Hn. cbn. apply Z.eqb_neq in Hn. now rewrite Hn.
Qed.

(** Only the three bytes EF BB BF decode to U+FEFF. *)
Lemma utf8_decode_bom (input rest : list Z) :
  utf8_decode input = Some (0xFEFF :: rest) ->
  exists input', input = 0xEF :: 0xBB :: 0xBF :: input' /\ utf8_decode input' = Some rest.
Proof.
  intros H. destruct input as [|b0 input]; [discriminate|].
  unfold utf8_decode in H. cbn [run_decoder] in H.
  unfold utf8_handler at 1 in H. cbn [utf8_initial utf8_bytes_needed Z.eqb
    utf8_bytes_seen utf8_lower_boundary utf8_upper_boundary] in H.
  destruct (in_range 0 b0 127) eqn:E1.
  { destruct (run_decoder utf8_handler utf8_initial input); cbn in H; [|discriminate].
    apply in_range_spec in E1. inversion H. lia. }
  destruct (in_range 194 b0 223) eqn:E2.
  { apply in_range_spec in E2.
    destruct input as [|b1 input]; [now rewrite utf8_pending_end in H|].
    apply utf8_continuation in H; [|lia]. destruct H as [R1 H]. cbn -[Z.shiftl Z.lor Z.land] in H.
    destruct H as [out' [Hcp _]]. exfalso.
    change 31 with (Z.ones 5) in Hcp. change 63 with (Z.ones 6) in Hcp.
    rewrite (land_low_bits b0 5 192), (land_low_bits b1 6 128) in Hcp
      by (cbn; lia).
    rewrite lor_shiftl_6 in Hcp by lia. inversion Hcp. lia. }
  destruct (in_range 224 b0 239) eqn:E3.
  { apply in_range_spec in E3.
    destruct input as [|b1 input]; [now rewrite utf8_pending_end in H|].
    apply utf8_continuation in H; [|lia]. destruct H as [R1 H]. cbn -[Z.shiftl Z.lor Z.land] in H.
    destruct input as [|b2 input]; [now rewrite utf8_pending_end in H|].
    apply utf8_continuation in H; [|lia]. destruct H as [R2 H]. cbn -[Z.shiftl Z.lor Z.land] in H.
    destruct H as [out' [Hcp Hrest]].
    assert (R1' : 128 <= b1 <= 191)
      by (destruct (b0 =? 224), (b0 =? 237); lia).
    change 15 with (Z.ones 4) in Hcp. change 63 with (Z.ones 6) in Hcp.
    rewrite (land_low_bits b0 4 224), (land_low_bits b1 6 128),
      (land_low_bits b2 6 128) in Hcp by (cbn; lia).
    rewrite !lor_shiftl_6 in Hcp by lia. inversion Hcp; subst out'.
    assert (b0 = 239 /\ b1 = 187 /\ b2 = 191) as (-> & -> & ->) by lia.
    eauto. }
  destruct (in_range 240 b0 244) eqn:E4; [|discriminate].
  apply in_range_spec in E4.
  destruct input as [|b1 input]; [now rewrite utf8_pending_end in H|].
  apply utf8_continuation in H; [|lia]. destruct H as [R1 H]. cbn -[Z.shiftl Z.lor Z.land] in H.
  destruct input as [|b2 input]; [now rewrite utf8_pending_end in H|].
  apply utf8_continuation in H; [|lia]. destruct H as [R2 H]. cbn -[Z.shiftl Z.lor Z.land] in H.
  destruct input as [|b3 input]; [now rewrite utf8_pending_end in H|].
  apply utf8_continuation in H; [|lia]. destruct H as [R3 H]. cbn -[Z.shiftl Z.lor Z.land] in H.
  destruct H as [out' [Hcp _]]. exfalso.
  assert (R1' : 128 <= b1 <= 191 /\ (b0 = 240 -> 144 <= b1)).
  { destruct (Z.eqb_spec b0 240), (b0 =? 244); lia. }
  change 7 with (Z.ones 3) in Hcp. change 63 with (Z.ones 6) in Hcp.
  rewrite (land_low_bits b0 3 240), (land_low_bits b1 6 128),
    (land_low_bits b2 6 128), (land_low_bits b3 6 128) in Hcp by (cbn; lia).
  rewrite !lor_shiftl_6 in Hcp by lia. inversion Hcp. lia.
Qed.

Lemma TextDecoder_utf8_empty (idx : Z -> option Z) (buffer : list Z) :
  TextDecoder_decode idx utf_8 buffer = Some [] ->
  buffer = [] \/ buffer = [0xEF; 0xBB; 0xBF].
Proof.
  unfold TextDecoder_decode. cbn [run_encoding]. intros H.
  destruct buffer as [|b buffer]; [now left|right].
  destruct (utf8_decode (b :: buffer)) as [cps|] eqn:E; [|discriminate].
  cbn [option_map] in H. injection H as H.
  pose proof (utf8_decode_nonempty _ _ _ E) as Hne.
  destruct cps as [|cp rest]; [congruence|]. cbn [serialize] in H.
  destruct (Z.eqb_spec cp 0xFEFF) as [->|Hcp].
  - destruct rest as [|cp' rest];
      [|now apply code_points_to_string_nonempty in H].
    apply utf8_decode_bom in E. destruct E as [input' [E Hrest]].
    destruct input' as [|b' input']; [exact E|].
    now apply utf8_decode_nonempty in Hrest.
  - now apply code_points_to_string_nonempty in H.
Qed.

Lemma TextDecoder_sjis_nonempty (idx : Z -> option Z) (b : Z) (buffer : list Z) (d : str) :
  TextDecoder_decode idx shift_jis (b :: buffer) = Some d -> d <> [].
Proof.
  unfold TextDecoder_decode. cbn [run_encoding]. intros H.
  destruct (sjis_decode idx (b :: buffer)) as [cps|] eqn:E; [|discriminate].
  cbn [option_map serialize] in H. injection H as <-.
  apply code_points_to_string_nonempty.
  replace (serialize shift_jis cps) with cps by now destruct cps.
  exact (sjis_decode_nonempty _ _ _ _ E).
Qed.

Lemma TextDecoder_empty_buffer (idx : Z -> option Z) (label : encoding) :
  TextDecoder_decode idx label [] = Some [].
Proof. now destruct label. Qed.

Lemma high_byte_ascii_dec (c : Z) : {high_byte_ascii c} + {~ high_byte_ascii c}.
Proof.
  destruct ((low_byte c =? 0) && (high_byte c >=? 0x20) && (high_byte c <=? 0x7E))
    eqn:E.
  - left. now apply high_byte_ascii_test.
  - right. intros H. apply high_byte_ascii_test in H. congruence.
Qed.

Lemma not_garbled_wide (s : str) :
  isPotentiallyGarbled s = false -> Exists (fun c => 255 < c) s.
Proof.
  induction s as [|c s IH]; simpl; [discriminate|].
  destruct (c >? 255) eqn:E.
  - intros _. left. now apply Z.gtb_lt in E.
  - intros H. right. auto.
Qed.

(** ** The claims about [getBestEffortDecodedString] *)

Section Claims.

Variable index_jis0208 : Z -> option Z.

Local Abbreviation repair := (getBestEffortDecodedString index_jis0208).
Local Abbreviation body := (getBestEffortDecodedString_body index_jis0208).
Local Abbreviation TextDecode := (TextDecoder_decode index_jis0208).

(** Every call on a non-empty string leaves through one of four exits. *)
Lemma body_cases (s : str) :
  s <> [] ->
  (Forall high_byte_ascii s /\ body (Str s) = ([], Return (Str (map high_byte s))))
  \/ (Exists (fun c => 255 < c) s /\ body (Str s) = ([], Return (Str s)))
  \/ (Forall (fun c => c <= 255) s /\
      exists d, d <> s /\ TextDecode utf_8 (fill_buffer s) = Some d /\
                body (Str s) = ([utf_8], Return (Str d)))
  \/ (Forall (fun c => c <= 255) s /\
      body (Str s) =
      ([utf_8; shift_jis],
       Return (Str match TextDecode shift_jis (fill_buffer s) with
                   | Some d => d
                   | None => s
                   end))).
Proof.
  intros Hne.
  destruct (isPotentiallyGarbled s) eqn:Eg.
  - apply isPotentiallyGarbled_true in Eg. right. right.
    destruct (TextDecode utf_8 (fill_buffer s)) as [d|] eqn:E8.
    + destruct (list_eq_dec Z.eq_dec d s) as [->|Hd].
      * right. split; [exact Eg|]. apply body_bytes_sjis; auto.
      * left. split; [exact Eg|]. exists d. repeat split; auto.
        now apply body_bytes_utf8.
    + right. split; [exact Eg|]. apply body_bytes_sjis; auto.
  - apply not_garbled_wide in Eg.
    destruct (Forall_dec high_byte_ascii high_byte_ascii_dec s) as [Ha|Hn].
    + left. split; [exact Ha|]. now apply body_step1.
    + right. left. split; [exact Eg|]. now apply body_wide.
Qed.

Lemma repair_of_body (t : value) (calls : list encoding) (v : value) :
  body t = (calls, Return v) -> repair t = Value v /\ decode_attempts index_jis0208 t = calls.
Proof.
  unfold getBestEffortDecodedString, decode_attempts. now intros ->.
Qed.

(** C1: a non-empty string whose every code unit has a zero low byte and a
    high byte in [0x20, 0x7E] is repaired to the string of its high bytes;
    there is no minimum length (a single such unit is repaired too), and the
    units 0x4100, 0x4200, 0x4300 give "ABC". *)
Theorem repair_misinterpreted_utf16be :
  (forall s : str,
      s <> [] -> Forall high_byte_ascii s ->
      repair (Str s) = Value (Str (map high_byte s)))
  /\ repair (Str [0x4100]) = Value (Str [0x41])
  /\ repair (Str [0x4100; 0x4200; 0x4300]) = Value (Str [0x41; 0x42; 0x43]).
Proof.
  split; [|split; reflexivity].
  intros s Hne Hall. now apply (repair_of_body _ _ _ (body_step1 _ s Hne Hall)).
Qed.

(** C2: when all code units are bytes, the bytes decode strictly as UTF-8 and
    the decoded string differs from the input, the result is that decoding;
    the bytes E6 97 A5 E6 9C AC give the two units U+65E5 U+672C. *)
Theorem repair_utf8_bytes :
  (forall s d : str,
      Forall is_byte s ->
      TextDecode utf_8 s = Some d -> d <> s ->
      repair (Str s) = Value (Str d))
  /\ repair (Str [0xE6; 0x97; 0xA5; 0xE6; 0x9C; 0xAC]) = Value (Str [0x65E5; 0x672C]).
Proof.
  split; [|reflexivity].
  intros s d Hb Hd Hds.
  assert (Hne : s <> []).
  { intros ->. rewrite TextDecoder_empty_buffer in Hd. congruence. }
  pose proof (bytes_at_most_255 s Hb) as Hle.
  rewrite <- (fill_buffer_bytes s Hb) in Hd.
  now apply (repair_of_body _ _ _ (body_bytes_utf8 _ s d Hne Hle Hd Hds)).
Qed.

(** C3: when all code units are bytes, the strict UTF-8 decoding throws or
    gives the input back, and the strict Shift-JIS decoding succeeds and
    differs from the input, the result is the Shift-JIS decoding. *)
Theorem repair_sjis_fallback (s d : str) :
  Forall is_byte s ->
  TextDecode utf_8 s = None \/ TextDecode utf_8 s = Some s ->
  TextDecode shift_jis s = Some d -> d <> s ->
  repair (Str s) = Value (Str d).
Proof.
  intros Hb H8 Hj Hds.
  assert (Hne : s <> []).
  { intros ->. rewrite TextDecoder_empty_buffer in Hj. congruence. }
  pose proof (bytes_at_most_255 s Hb) as Hle.
  pose proof (body_bytes_sjis index_jis0208 s Hne Hle) as Hbody.
  rewrite (fill_buffer_bytes s Hb), Hj in Hbody.
  now apply (repair_of_body _ _ _ (Hbody H8)).
Qed.

(** C4, amended: a string with a code unit above 255 is returned unchanged
    unless step 1 classifies it as misinterpreted, that is, unless every code
    unit has a zero low byte and a high byte in [0x20, 0x7E]. *)
Theorem repair_wide_unless_misinterpreted (s : str) :
  Exists (fun c => 255 < c) s ->
  ~ Forall high_byte_ascii s ->
  repair (Str s) = Value (Str s).
Proof.
  intros Hw Hn. now apply (repair_of_body _ _ _ (body_wide _ s Hn Hw)).
Qed.

(** C5, amended: for [undefined] and for the empty string the function
    returns the empty string, before any repair step runs. *)
Theorem repair_falsy_is_empty_string :
  repair undefined = Value (Str [])
  /\ repair (Str []) = Value (Str [])
  /\ decode_attempts index_jis0208 undefined = []
  /\ decode_attempts index_jis0208 (Str []) = [].
Proof. repeat split. Qed.

(** C6: the function never raises: every call returns a value; a UTF-8
    decoding that throws is caught, the Shift-JIS attempt follows, and when
    that one throws too (or does not change the text) the input is returned. *)
Theorem repair_never_raises :
  (forall t : value, exists v, repair t = Value v)
  /\ (forall s : str,
         s <> [] -> Forall is_byte s -> TextDecode utf_8 s = None ->
         decode_attempts index_jis0208 (Str s) = [utf_8; shift_jis]
         /\ repair (Str s) = Value (Str match TextDecode shift_jis s with
                                        | Some d => d
                                        | None => s
                                        end)).
Proof.
  split.
  - intros [| |s]; [now exists (Str [])..|].
    destruct s as [|c s]; [now exists (Str [])|].
    destruct (body_cases (c :: s)) as [[_ H]|[[_ H]|[[_ [d [_ [_ H]]]]|[_ H]]]];
      [discriminate|..]; apply repair_of_body in H; destruct H as [H _]; eauto.
  - intros s Hne Hb H8.
    pose proof (bytes_at_most_255 s Hb) as Hle.
    pose proof (body_bytes_sjis index_jis0208 s Hne Hle) as Hbody.
    rewrite (fill_buffer_bytes s Hb) in Hbody.
    specialize (Hbody (or_introl H8)). apply repair_of_body in Hbody. tauto.
Qed.

(** C7: when all code units are bytes and the byte sequence is invalid both
    as UTF-8 and as Shift-JIS, the input is returned unchanged. *)
Theorem repair_invalid_in_both (s : str) :
  Forall is_byte s ->
  TextDecode utf_8 s = None -> TextDecode shift_jis s = None ->
  repair (Str s) = Value (Str s).
Proof.
  intros Hb H8 Hj.
  assert (Hne : s <> []).
  { intros ->. rewrite TextDecoder_empty_buffer in Hj. congruence. }
  pose proof (bytes_at_most_255 s Hb) as Hle.
  pose proof (body_bytes_sjis index_jis0208 s Hne Hle) as Hbody.
  rewrite (fill_buffer_bytes s Hb), Hj in Hbody.
  now apply (repair_of_body _ _ _ (Hbody (or_introl H8))).
Qed.

(** C8: when step 1 does not classify the string as misinterpreted (some code
    unit has a nonzero low byte or a high byte outside [0x20, 0x7E]) and some
    code unit exceeds 255, the input is returned unchanged and neither the
    UTF-8 nor the Shift-JIS decoder is run. *)
Theorem repair_wide_skips_decoders (s : str) :
  Exists (fun c => low_byte c <> 0 \/ ~ 0x20 <= high_byte c <= 0x7E) s ->
  Exists (fun c => 255 < c) s ->
  repair (Str s) = Value (Str s) /\ decode_attempts index_jis0208 (Str s) = [].
Proof.
  intros Hn Hw. apply repair_of_body, body_wide; [|exact Hw].
  intros Hall. apply Exists_exists in Hn. destruct Hn as [c [Hin Hc]].
  rewrite Forall_forall in Hall. destruct (Hall c Hin) as [Hlo Hhi]. tauto.
Qed.

(** C9: conditional idempotence: when a call returns its input, calling the
    function again on the result returns that input again. *)
Theorem repair_fixed_point_idempotent (t : value) :
  repair t = Value t -> repair_twice index_jis0208 t = Value t.
Proof.
  intros H. unfold repair_twice. now rewrite H.
Qed.

(** C10, amended: the function always returns a string, and for a well-formed
    input the result is the empty string exactly when the input is
    [undefined], [null], the empty string, or the three code units EF BB BF,
    the UTF-8 byte order mark, which the UTF-8 decoder drops. *)
Theorem repair_empty_iff (t : value) :
  match t with Str s => wf_string s | _ => True end ->
  (exists s, repair t = Value (Str s))
  /\ (repair t = Value (Str []) <->
      t = undefined \/ t = null \/ t = Str [] \/ t = Str [0xEF; 0xBB; 0xBF]).
Proof.
  intros Hwf. destruct t as [| |s].
  - split; [now exists []|]. split; auto.
  - split; [now exists []|]. split; auto.
  - destruct s as [|c s].
    { split; [now exists []|]. split; auto. }
    assert (Hne : c :: s <> []) by discriminate.
    destruct (body_cases (c :: s) Hne)
      as [[Ha H]|[[_ H]|[[Hle [d [Hd [H8 H]]]]|[Hle H]]]];
      apply repair_of_body in H; destruct H as [H Hcalls]; rewrite H.
    + split; [eauto|]. split.
      * intros E. discriminate.
      * intros [E|[E|[E|E]]]; try discriminate.
        exfalso. injection E as -> ->.
        inversion Ha as [|? ? [Hlo _] _]. discriminate.
    + split; [eauto|]. split.
      * intros E. discriminate.
      * intros [E|[E|[E|E]]]; try discriminate.
        exfalso. rewrite E in H. discriminate.
    + split; [eauto|].
      assert (Hb : Forall is_byte (c :: s)).
      { apply Forall_forall. intros x Hx.
        unfold wf_string in Hwf.
        rewrite Forall_forall in Hwf, Hle. specialize (Hwf x Hx).
        specialize (Hle x Hx). unfold is_byte, is_code_unit in *. lia. }
      rewrite (fill_buffer_bytes _ Hb) in H8. split.
      * intros E. injection E as ->.
        apply TextDecoder_utf8_empty in H8. destruct H8 as [E|E]; [discriminate|].
        rewrite E. auto.
      * intros [E|[E|[E|E]]]; try discriminate.
        rewrite E in H. injection H as <-. reflexivity.
    + split; [eauto|]. split.
      * intros E. exfalso. injection E as E.
        change (ToUint8 c :: fill_buffer s) with (fill_buffer (c :: s)) in E.
        destruct (TextDecode shift_jis (fill_buffer (c :: s))) as [d|] eqn:Ej;
          [|discriminate E].
        subst d. now apply TextDecoder_sjis_nonempty in Ej.
      * intros [E|[E|[E|E]]]; try discriminate.
        exfalso. rewrite E in Hcalls. discriminate Hcalls.
Qed.

End Claims.

(** ** Concrete runs *)

(** C1 at a single code unit: U+4100 becomes "A". *)
Lemma repair_misinterpreted_utf16be_single :
  getBestEffortDecodedString index_jis0208_sample (Str [0x4100]) = Value (Str [0x41]).
Proof.
  apply (proj1 (repair_misinterpreted_utf16be index_jis0208_sample) [0x4100]).
  - discriminate.
  - repeat constructor; cbn; lia.
Defined.

(** C2 at the bytes C3 A9, the UTF-8 form of U+00E9. *)
Lemma repair_utf8_bytes_e_acute :
  getBestEffortDecodedString index_jis0208_sample (Str [0xC3; 0xA9]) = Value (Str [0xE9]).
Proof.
  apply (proj1 (repair_utf8_bytes index_jis0208_sample) [0xC3; 0xA9] [0xE9]).
  - repeat constructor; discriminate.
  - reflexivity.
  - discriminate.
Defined.

(** C3 at the bytes 82 A0 B1: not UTF-8, and Shift-JIS for U+3042 U+FF71. *)
Lemma repair_sjis_fallback_kana :
  getBestEffortDecodedString index_jis0208_sample (Str [0x82; 0xA0; 0xB1])
  = Value (Str [0x3042; 0xFF71]).
Proof.
  apply (repair_sjis_fallback index_jis0208_sample [0x82; 0xA0; 0xB1] [0x3042; 0xFF71]).
  - repeat constructor; discriminate.
  - left. reflexivity.
  - reflexivity.
  - discriminate.
Defined.

(** C4 as stated fails: the units 0x4100, 0x4200, 0x4300 all exceed 255, and
    the call returns "ABC", not its input. *)
Lemma wide_text_changed_by_step1 :
  Exists (fun c => 255 < c) [0x4100; 0x4200; 0x4300]
  /\ (forall idx, getBestEffortDecodedString idx (Str [0x4100; 0x4200; 0x4300])
                  = Value (Str [0x41; 0x42; 0x43]))
  /\ Value (Str [0x41; 0x42; 0x43]) <> Value (Str [0x4100; 0x4200; 0x4300]).
Proof.
  split; [|split].
  - left. reflexivity.
  - reflexivity.
  - discriminate.
Qed.

(** C4, amended, at the single unit U+3042. *)
Lemma repair_wide_unless_misinterpreted_hiragana :
  getBestEffortDecodedString index_jis0208_sample (Str [0x3042]) = Value (Str [0x3042]).
Proof.
  apply (repair_wide_unless_misinterpreted index_jis0208_sample [0x3042]).
  - left. reflexivity.
  - intros H. inversion H as [|c s [Hlow _] _]. discriminate Hlow.
Defined.

(** C5 as stated fails: for [undefined] the call returns the empty string,
    which is not [undefined]. *)
Lemma undefined_becomes_empty_string :
  (forall idx, getBestEffortDecodedString idx undefined = Value (Str []))
  /\ Value (Str []) <> Value undefined.
Proof.
  split; [reflexivity | discriminate].
Qed.

(** C6 at the byte FF, which neither decoder accepts. *)
Lemma repair_never_raises_byte_ff :
  decode_attempts index_jis0208_sample (Str [0xFF]) = [utf_8; shift_jis]
  /\ getBestEffortDecodedString index_jis0208_sample (Str [0xFF]) = Value (Str [0xFF]).
Proof.
  apply (proj2 (repair_never_raises index_jis0208_sample) [0xFF]).
  - discriminate.
  - repeat constructor; discriminate.
  - reflexivity.
Defined.

(** C7 at the bytes FF FE. *)
Lemma repair_invalid_in_both_ff_fe :
  getBestEffortDecodedString index_jis0208_sample (Str [0xFF; 0xFE])
  = Value (Str [0xFF; 0xFE]).
Proof.
  apply (repair_invalid_in_both index_jis0208_sample [0xFF; 0xFE]).
  - repeat constructor; discriminate.
  - reflexivity.
  - reflexivity.
Defined.

(** C8 at U+3042 followed by the Latin-1 bytes C3 A9 that look garbled. *)
Lemma repair_wide_skips_decoders_mixed :
  getBestEffortDecodedString index_jis0208_sample (Str [0x3042; 0xC3; 0xA9])
  = Value (Str [0x3042; 0xC3; 0xA9])
  /\ decode_attempts index_jis0208_sample (Str [0x3042; 0xC3; 0xA9]) = [].
Proof.
  apply (repair_wide_skips_decoders index_jis0208_sample [0x3042; 0xC3; 0xA9]).
  - left. left. discriminate.
  - left. reflexivity.
Defined.

(** C9 at the plain ASCII string "A". *)
Lemma repair_fixed_point_idempotent_ascii :
  repair_twice index_jis0208_sample (Str [0x41]) = Value (Str [0x41]).
Proof.
  apply (repair_fixed_point_idempotent index_jis0208_sample (Str [0x41])).
  reflexivity.
Defined.

(** C10 as stated fails: the three units EF BB BF are a non-empty string, and
    the call returns the empty string. *)
Lemma byte_order_mark_becomes_empty :
  [0xEF; 0xBB; 0xBF] <> ([] : str)
  /\ wf_string [0xEF; 0xBB; 0xBF]
  /\ (forall idx, getBestEffortDecodedString idx (Str [0xEF; 0xBB; 0xBF])
                  = Value (Str [])).
Proof.
  split; [discriminate|]. split; [|reflexivity].
  repeat constructor; discriminate.
Qed.

(** C10, amended, at "A": the result is a string, and it is not empty. *)
Lemma repair_empty_iff_ascii :
  (exists s, getBestEffortDecodedString index_jis0208_sample (Str [0x41]) = Value (Str s))
  /\ (getBestEffortDecodedString index_jis0208_sample (Str [0x41]) = Value (Str []) <->
      Str [0x41] = undefined \/ Str [0x41] = null \/ Str [0x41] = Str []
      \/ Str [0x41] = Str [0xEF; 0xBB; 0xBF]).
Proof.
  apply (repair_empty_iff index_jis0208_sample (Str [0x41])).
  repeat constructor; discriminate.
Defined.

(** * Further properties of [getBestEffortDecodedString] *)

(** ** Plain ASCII decodes to itself *)

Lemma utf8_decode_ascii (s : list Z) : Forall is_ascii s -> utf8_decode s = Some s.
Proof.
  unfold utf8_decode. induction 1 as [|c s Hc _ IH]; [reflexivity|].
  cbn [run_decoder]. unfold utf8_handler at 1.
  cbn [utf8_initial utf8_bytes_needed Z.eqb].
  rewrite (proj2 (in_range_spec 0 c 127) Hc). now rewrite IH.
Qed.

Lemma sjis_decode_ascii (idx : Z -> option Z) (s : list Z) :
  Forall is_ascii s -> sjis_decode idx s = Some s.
Proof.
  unfold sjis_decode. induction 1 as [|c s Hc _ IH]; [reflexivity|].
  cbn [run_decoder]. unfold sjis_handler at 1. cbn [Z.eqb negb].
  rewrite (proj2 (in_range_spec 0 c 127) Hc). cbn [orb]. now rewrite IH.
Qed.

Lemma code_points_to_string_bmp (cps : list Z) :
  Forall (fun cp => cp < 0x10000) cps -> code_points_to_string cps = cps.
Proof.
  unfold code_points_to_string. induction 1 as [|cp cps Hcp _ IH]; [reflexivity|].
  cbn [flat_map]. rewrite IH. unfold utf16_units.
  apply Z.ltb_lt in Hcp. now rewrite Hcp.
Qed.

Lemma TextDecoder_ascii (idx : Z -> option Z) (label : encoding) (s : list Z) :
  Forall is_ascii s -> TextDecoder_decode idx label s = Some s.
Proof.
  intros Ha. unfold TextDecoder_decode.
  assert (Hrun : run_encoding idx label s = Some s).
  { destruct label; [now apply utf8_decode_ascii | now apply sjis_decode_ascii]. }
  rewrite Hrun. cbn [option_map]. f_equal.
  assert (Hser : serialize label s = s).
  { destruct label, s as [|c s]; try reflexivity. cbn [serialize].
    inversion Ha as [|? ? Hc _]. unfold is_ascii in Hc.
    destruct (Z.eqb_spec c 0xFEFF); [lia|reflexivity]. }
  rewrite Hser. apply code_points_to_string_bmp.
  eapply Forall_impl; [|exact Ha]. unfold is_ascii. intros; lia.
Qed.

Lemma ascii_bytes (s : str) : Forall is_ascii s -> Forall is_byte s.
Proof. apply Forall_impl. unfold is_ascii, is_byte. intros; lia. Qed.

Lemma body_ascii (idx : Z -> option Z) (c : Z) (s : str) :
  Forall is_ascii (c :: s) ->
  getBestEffortDecodedString_body idx (Str (c :: s))
  = ([utf_8; shift_jis], Return (Str (c :: s))).
Proof.
  intros Ha. pose proof (ascii_bytes _ Ha) as Hb.
  pose proof (body_bytes_sjis idx (c :: s)) as H.
  rewrite (fill_buffer_bytes _ Hb), !(TextDecoder_ascii idx _ _ Ha) in H.
  apply H; [discriminate | now apply bytes_at_most_255 | now right].
Qed.

(** ** The decoders never give more code units than they read bytes *)

(** [pending st] tells that the decoder has consumed bytes it has not yet
    answered with a code point. *)
Lemma run_decoder_length (S : Type) (handler : S -> option Z -> handler_result S)
  (pending : S -> bool) :
  (forall st b st', handler st (Some b) = continue st' -> pending st' = true) ->
  (forall st b cp st', handler st (Some b) = code_point cp st' ->
                       pending st' = false /\ (pending st = false -> cp < 0x10000)) ->
  forall input st out,
    run_decoder handler st input = Some out ->
    (length (code_points_to_string out) <=
     length input + (if pending st then 1 else 0))%nat.
Proof.
  intros Hcont Hcp. induction input as [|b input IH]; intros st out H.
  - cbn [run_decoder] in H. destruct (handler st None); try discriminate.
    injection H as <-. cbn. lia.
  - cbn [run_decoder] in H.
    destruct (handler st (Some b)) as [| |st'|cp st'] eqn:E.
    + injection H as <-. cbn. lia.
    + discriminate.
    + apply IH in H. rewrite (Hcont _ _ _ E) in H. cbn [length]. lia.
    + destruct (run_decoder handler st' input) as [out'|] eqn:E'; [|discriminate].
      cbn [option_map] in H. injection H as <-.
      apply IH in E'. destruct (Hcp _ _ _ _ E) as [Hp' Hsmall].
      rewrite Hp' in E'. unfold code_points_to_string in *. cbn [flat_map].
      rewrite length_app. cbn [length].
      assert (Hu : (length (utf16_units cp) <= 1 + (if pending st then 1 else 0))%nat).
      { unfold utf16_units. destruct (pending st).
        - destruct (cp <? 65536); cbn; lia.
        - specialize (Hsmall eq_refl). apply Z.ltb_lt in Hsmall.
          rewrite Hsmall. cbn. lia. }
      lia.
Qed.

Lemma utf8_decode_length (input out : list Z) :
  utf8_decode input = Some out ->
  (length (code_points_to_string out) <= length input)%nat.
Proof.
  intros H.
  unshelve epose proof (run_decoder_length utf8_state utf8_handler
    (fun st => negb (utf8_bytes_needed st =? 0)) _ _ input utf8_initial out H) as L;
    [| |cbn in L; lia].
  - intros st b st' E. apply utf8_handler_pending in E.
    unfold utf8_handler in E. cbv beta.
    destruct (utf8_bytes_needed st' =? 0); [now destruct E | reflexivity].
  - intros st b cp st' E. unfold utf8_handler in E.
    destruct (utf8_bytes_needed st =? 0) eqn:E0.
    + destruct (in_range 0 b 127) eqn:Er.
      * injection E as <- <-. rewrite E0. split; [reflexivity|].
        intros _. apply in_range_spec in Er. lia.
      * repeat match type of E with
               | context [if ?c then _ else _] => destruct c
               end; discriminate.
    + destruct (in_range (utf8_lower_boundary st) b (utf8_upper_boundary st));
        cbn [negb] in E; [|discriminate].
      cbv zeta in E.
      destruct (utf8_bytes_seen st + 1 =? utf8_bytes_needed st); [|discriminate].
      injection E as <- <-. rewrite E0. split; [reflexivity | discriminate].
Qed.

Lemma sjis_decode_length (idx : Z -> option Z) (input out : list Z) :
  sjis_decode idx input = Some out ->
  (length (code_points_to_string out) <= length input)%nat.
Proof.
  intros H.
  unshelve epose proof (run_decoder_length Z (sjis_handler idx)
    (fun lead => negb (lead =? 0)) _ _ input 0 out H) as L;
    [| |cbn in L; lia].
  - intros lead b lead' E. apply sjis_handler_pending in E.
    unfold sjis_handler in E. cbv beta.
    destruct (lead' =? 0); [now destruct E | reflexivity].
  - intros lead b cp lead' E. unfold sjis_handler in E.
    destruct (negb (lead =? 0)) eqn:E0.
    + cbv zeta in E.
      repeat match type of E with
             | context [if ?c then _ else _] => destruct c
             | context [match idx ?p with _ => _ end] => destruct (idx p)
             end; try discriminate; injection E as <- <-;
        (split; [reflexivity | discriminate]).
    + destruct (in_range 0 b 127 || (b =? 128)) eqn:E1.
      { injection E as <- <-. split; [reflexivity|]. intros _.
        apply orb_true_iff in E1. rewrite in_range_spec, Z.eqb_eq in E1. lia. }
      destruct (in_range 161 b 223) eqn:E2.
      { assert (Hcp : 0xFF61 - 0xA1 + b = cp) by congruence.
        assert (Hlead : 0 = lead') by congruence. subst cp lead'.
        split; [reflexivity|]. intros _. apply in_range_spec in E2. lia. }
      destruct (in_range 129 b 159 || in_range 224 b 252); discriminate.
Qed.

Lemma TextDecoder_length (idx : Z -> option Z) (label : encoding) (buffer : list Z) (d : str) :
  TextDecoder_decode idx label buffer = Some d -> (length d <= length buffer)%nat.
Proof.
  unfold TextDecoder_decode. intros H.
  destruct (run_encoding idx label buffer) as [cps|] eqn:E; [|discriminate].
  cbn [option_map] in H. injection H as <-.
  assert (Hcps : (length (code_points_to_string cps) <= length buffer)%nat).
  { destruct label; [now apply utf8_decode_length
                    | now apply (sjis_decode_length idx)]. }
  destruct label, cps as [|cp cps]; cbn [serialize]; try exact Hcps.
  destruct (cp =? 0xFEFF); [|exact Hcps].
  unfold code_points_to_string in *. cbn [flat_map] in Hcps.
  rewrite length_app in Hcps. lia.
Qed.

(** ** What the repair does to any string *)

(** X1: a string of plain ASCII (every code unit at most 0x7F) comes back
    unchanged. *)
Theorem repair_ascii_unchanged (idx : Z -> option Z) (s : str) :
  Forall is_ascii s ->
  getBestEffortDecodedString idx (Str s) = Value (Str s).
Proof.
  intros Ha. destruct s as [|c s]; [reflexivity|].
  now apply (repair_of_body idx _ _ _ (body_ascii idx c s Ha)).
Qed.

(** X2: the result is never longer than the input. *)
Theorem repair_never_longer (idx : Z -> option Z) (s : str) :
  exists r, getBestEffortDecodedString idx (Str s) = Value (Str r)
            /\ (length r <= length s)%nat.
Proof.
  destruct s as [|c s]; [now exists []|].
  assert (Hbuf : length (fill_buffer (c :: s)) = length (c :: s))
    by apply length_map.
  destruct (body_cases idx (c :: s)) as [[_ H]|[[_ H]|[[_ [d [_ [H8 H]]]]|[_ H]]]];
    [discriminate|..]; apply repair_of_body in H; destruct H as [H _];
    rewrite H; eexists; (split; [reflexivity|]).
  - now rewrite length_map.
  - lia.
  - apply TextDecoder_length in H8. lia.
  - destruct (TextDecoder_decode idx shift_jis (fill_buffer (c :: s))) as [d|] eqn:Ej;
      [|lia].
    apply TextDecoder_length in Ej. lia.
Qed.

(** X3: after step 1 has rebuilt a string from its high bytes, a second call
    leaves the rebuilt string as it is. *)
Theorem repair_twice_after_step1 (idx : Z -> option Z) (s : str) :
  s <> [] -> Forall high_byte_ascii s ->
  repair_twice idx (Str s) = Value (Str (map high_byte s)).
Proof.
  intros Hne Hall. unfold repair_twice.
  destruct (repair_of_body idx _ _ _ (body_step1 idx s Hne Hall)) as [-> _].
  destruct s as [|c s]; [congruence|]. cbn [map].
  assert (Ha : Forall is_ascii (map high_byte (c :: s))).
  { apply Forall_map. eapply Forall_impl; [|exact Hall].
    unfold high_byte_ascii, is_ascii. intros; lia. }
  now apply (repair_of_body idx _ _ _ (body_ascii idx _ _ Ha)).
Qed.

(** X4: a call runs no decoder, or UTF-8 alone, or UTF-8 and then Shift-JIS:
    Shift-JIS is never tried first or alone, and no decoder runs twice. *)
Theorem decode_attempts_shape (idx : Z -> option Z) (t : value) :
  decode_attempts idx t = []
  \/ decode_attempts idx t = [utf_8]
  \/ decode_attempts idx t = [utf_8; shift_jis].
Proof.
  destruct t as [| |s]; [now left..|].
  destruct s as [|c s]; [now left|].
  destruct (body_cases idx (c :: s)) as [[_ H]|[[_ H]|[[_ [d [_ [_ H]]]]|[_ H]]]];
    [discriminate|..]; apply repair_of_body in H; destruct H as [_ H]; auto.
Qed.


(** * Tags and track texts *)

Lemma repair_string (idx : Z -> option Z) (t : value) :
  exists s, getBestEffortDecodedString idx t = Value (Str s).
Proof.
  destruct t as [| |s]; [now exists []..|].
  destruct s as [|c s]; [now exists []|].
  destruct (body_cases idx (c :: s)) as [[_ H]|[[_ H]|[[_ [d [_ [_ H]]]]|[_ H]]]];
    [discriminate|..]; apply repair_of_body in H; destruct H as [H _]; eauto.
Qed.

Lemma track_text_nonempty (idx : Z -> option Z) (mm : metadata)
  (tagId : str) (common : value) (fallback : str) :
  fallback <> [] ->
  exists s, track_text idx mm tagId common fallback = Value (Str s) /\ s <> [].
Proof.
  intros Hf. unfold track_text.
  destruct (repair_string idx (getNativeTag mm tagId)) as [a ->].
  destruct (repair_string idx common) as [b ->].
  unfold or_else.
  destruct a as [|ca a]; cbn [truthy].
  - destruct b as [|cb b]; cbn [truthy].
    + exists fallback. destruct fallback; [congruence|]. now split.
    + exists (cb :: b). now split.
  - exists (ca :: a). now split.
Qed.

Lemma getNativeTag_from_undefined (mm : metadata) (tagId : str) (priority : list str) :
  getNativeTag_from mm tagId priority = undefined <->
  forall tagType tag, In tagType priority -> ~ usable_tag mm tagId tagType tag.
Proof.
  induction priority as [|d priority IH]; cbn [getNativeTag_from].
  - split; [intros _ ? ? []|reflexivity].
  - destruct (native mm d) as [tags|] eqn:En.
    + destruct (find (fun t => str_eqb (tag_id t) tagId) tags) as [tag|] eqn:Ef.
      * destruct (tag_value_truthy (tag_val tag)) eqn:Et.
        -- split; [discriminate|]. intros H. exfalso.
           apply (H d tag (or_introl eq_refl)). now exists tags.
        -- rewrite IH. split; intros H d' tag' Hin.
           ++ destruct Hin as [<-|Hin]; [|now apply H].
              intros [tags' [En' [Ef' Et']]]. congruence.
           ++ apply H. now right.
      * rewrite IH. split; intros H d' tag' Hin.
        -- destruct Hin as [<-|Hin]; [|now apply H].
           intros [tags' [En' [Ef' Et']]]. congruence.
        -- apply H. now right.
    + rewrite IH. split; intros H d' tag' Hin.
      * destruct Hin as [<-|Hin]; [|now apply H].
        intros [tags' [En' _]]. congruence.
      * apply H. now right.
Qed.

Lemma getNativeTag_from_first (mm : metadata) (tagId : str)
  (before : list str) (tagType : str) (after : list str) (tag : native_tag) :
  (forall d t, In d before -> ~ usable_tag mm tagId d t) ->
  usable_tag mm tagId tagType tag ->
  getNativeTag_from mm tagId (before ++ tagType :: after) = Str (tag_text (tag_val tag)).
Proof.
  intros Hbefore [tags [En [Ef Et]]].
  induction before as [|d before IH]; cbn [app getNativeTag_from].
  - now rewrite En, Ef, Et.
  - assert (IH' : getNativeTag_from mm tagId (before ++ tagType :: after)
                  = Str (tag_text (tag_val tag))).
    { apply IH. intros d' t' Hin. apply Hbefore. now right. }
    destruct (native mm d) as [tags'|] eqn:En'; [|exact IH'].
    destruct (find (fun t => str_eqb (tag_id t) tagId) tags') as [tag'|] eqn:Ef';
      [|exact IH'].
    destruct (tag_value_truthy (tag_val tag')) eqn:Et'; [|exact IH'].
    exfalso. apply (Hbefore d tag' (or_introl eq_refl)). now exists tags'.
Qed.

(** X5: the title, artist and album of a loaded track are never empty: each
    is a non-empty string, whatever the file's tags hold. *)
Theorem track_texts_never_empty (idx : Z -> option Z) (mm : metadata) :
  (exists s, track_title idx mm = Value (Str s) /\ s <> [])
  /\ (exists s, track_artist idx mm = Value (Str s) /\ s <> [])
  /\ (exists s, track_album idx mm = Value (Str s) /\ s <> []).
Proof.
  repeat split; apply track_text_nonempty; discriminate.
Qed.

(** X6: [getNativeTag] returns [undefined] exactly when none of ID3v2.4,
    ID3v2.3 and ID3v2.2 is usable: for each, the list is missing, or has no
    tag with the id, or the first such tag has a falsy value. *)
Theorem getNativeTag_undefined_iff (mm : metadata) (tagId : str) :
  getNativeTag mm tagId = undefined <->
  (forall tag, ~ usable_tag mm tagId Literal.ID3v2_4 tag)
  /\ (forall tag, ~ usable_tag mm tagId Literal.ID3v2_3 tag)
  /\ (forall tag, ~ usable_tag mm tagId Literal.ID3v2_2 tag).
Proof.
  unfold getNativeTag. rewrite getNativeTag_from_undefined. unfold tagPriority.
  split.
  - intros H. repeat split; intros tag; apply H; cbn; auto.
  - intros (H4 & H3 & H2) d tag [<-|[<-|[<-|[]]]]; auto.
Qed.

(** X7: the tag types are tried in the order ID3v2.4, ID3v2.3, ID3v2.2, and
    the first usable one gives the result: the text of its tag. *)
Theorem getNativeTag_priority (mm : metadata) (tagId : str)
  (before : list str) (tagType : str) (after : list str) (tag : native_tag) :
  tagPriority = before ++ tagType :: after ->
  (forall d t, In d before -> ~ usable_tag mm tagId d t) ->
  usable_tag mm tagId tagType tag ->
  getNativeTag mm tagId = Str (tag_text (tag_val tag)).
Proof.
  intros Hp Hbefore Hu. unfold getNativeTag. rewrite Hp.
  now apply getNativeTag_from_first.
Qed.

(** X8: a non-empty plain ASCII title found in the native tags is the
    track's title, unchanged, whatever [mm.common.title] holds. *)
Theorem ascii_native_title_kept (idx : Z -> option Z) (mm : metadata) (s : str) :
  getNativeTag mm Literal.TIT2 = Str s -> s <> [] -> Forall is_ascii s ->
  track_title idx mm = Value (Str s).
Proof.
  intros Hn Hne Ha. unfold track_title, track_text. rewrite Hn.
  destruct s as [|c s]; [congruence|].
  assert (Hr : getBestEffortDecodedString idx (Str (c :: s)) = Value (Str (c :: s)))
    by now apply (repair_of_body idx _ _ _ (body_ascii idx c s Ha)).
  rewrite Hr. destruct (repair_string idx (common_title mm)) as [b ->].
  reflexivity.
Qed.

(** * The playlist *)

Lemma array_set_length (A : Type) (a : list A) (i : nat) (x : A) :
  length (Player.array_set a i x) = length a.
Proof.
  revert i. induction a as [|y a IH]; intros [|i]; cbn; auto.
Qed.

Lemma array_set_same (A : Type) (a : list A) (i : nat) (x : A) :
  (i < length a)%nat -> nth_error (Player.array_set a i x) i = Some x.
Proof.
  revert i. induction a as [|y a IH]; intros [|i] H; cbn in *; try lia; auto.
  apply IH. lia.
Qed.

Lemma array_set_other (A : Type) (a : list A) (i j : nat) (x : A) :
  i <> j -> nth_error (Player.array_set a i x) j = nth_error a j.
Proof.
  revert i j. induction a as [|y a IH]; intros [|i] [|j] H; cbn; auto; try lia.
Qed.

Lemma array_get_in_range (A : Type) (a : list A) (i : Z) :
  0 <= i < Z.of_nat (length a) -> exists x, array_get a i = Some x.
Proof.
  intros H. unfold array_get.
  destruct (Z.ltb_spec i 0); [lia|].
  destruct (nth_error a (Z.to_nat i)) as [x|] eqn:E; [eauto|].
  apply nth_error_None in E. lia.
Qed.

Lemma array_get_some (A : Type) (a : list A) (i : Z) (x : A) :
  array_get a i = Some x -> 0 <= i < Z.of_nat (length a).
Proof.
  unfold array_get. destruct (Z.ltb_spec i 0); [discriminate|]. intros E.
  assert (Hn : nth_error a (Z.to_nat i) <> None) by congruence.
  apply nth_error_Some in Hn. lia.
Qed.

Lemma playTrack_in_range (st : Player.state) (index : Z) :
  Player.index_in_range st -> Player.index_in_range (Player.playTrack st index).
Proof.
  intros H. unfold Player.playTrack.
  destruct ((index >=? 0) && (index <? Player.playlist_length st)) eqn:E; [|exact H].
  apply andb_true_iff in E. destruct E as [E1 E2].
  apply Z.geb_le in E1. apply Z.ltb_lt in E2.
  unfold Player.index_in_range, Player.playlist_length in *. cbn. lia.
Qed.

Lemma step_in_range (st st' : Player.state) :
  Player.step st st' -> Player.index_in_range st -> Player.index_in_range st'.
Proof.
  intros Hs H. destruct Hs as [st index|st|st|st url|st|st newTracks Hne].
  - now apply playTrack_in_range.
  - unfold Player.handleNextTrack.
    destruct (Player.playlist_length st =? 0); [exact H|].
    destruct (Player.currentTrackIndex st); [|exact H].
    now apply playTrack_in_range.
  - unfold Player.handlePrevTrack.
    destruct (Player.playlist_length st =? 0); [exact H|].
    destruct (Player.currentTrackIndex st); [|exact H].
    now apply playTrack_in_range.
  - unfold Player.handleApplyArt, Player.index_in_range, Player.playlist_length in *.
    destruct (Player.currentTrackIndex st) as [i|] eqn:Ei; [|now rewrite Ei].
    cbn. destruct (array_get (Player.playlist st) i); [|exact H].
    now rewrite array_set_length.
  - exact I.
  - unfold Player.playlist_loaded, Player.index_in_range, Player.playlist_length.
    cbn. destruct newTracks as [|t newTracks]; [congruence|].
    cbn [length]. destruct (Z.gtb_spec (Z.of_nat (S (length newTracks))) 0); lia.
Qed.

Lemma reachable_in_range (st : Player.state) :
  Player.reachable st -> Player.index_in_range st.
Proof.
  induction 1 as [|st st' _ IH Hs]; [exact I|]. now apply (step_in_range st).
Qed.

(** X9: in every state the player can reach, a selected index is a valid
    position of the playlist, so the current track exists. *)
Theorem current_index_always_valid (st : Player.state) :
  Player.reachable st ->
  forall i, Player.currentTrackIndex st = Some i ->
            0 <= i < Player.playlist_length st
            /\ exists track, Player.currentTrack st = Some track.
Proof.
  intros Hr i Hi. apply reachable_in_range in Hr.
  unfold Player.index_in_range, Player.currentTrack in *. rewrite Hi in *.
  split; [exact Hr|]. now apply array_get_in_range.
Qed.

Lemma playTrack_valid (st : Player.state) (index : Z) :
  0 <= index < Player.playlist_length st ->
  Player.playTrack st index
  = Player.mk_state (Player.playlist st) (Some index) (Player.isArtModalOpen st).
Proof.
  intros H. unfold Player.playTrack.
  destruct (Z.geb_spec index 0); [|lia].
  destruct (Z.ltb_spec index (Player.playlist_length st)); [reflexivity|lia].
Qed.

Lemma handleNextTrack_selected (pl : list Player.Track) (cur : Z) (open : bool) :
  0 <= cur < Z.of_nat (length pl) ->
  Player.handleNextTrack (Player.mk_state pl (Some cur) open)
  = Player.mk_state pl (Some ((cur + 1) mod Z.of_nat (length pl))) open.
Proof.
  intros H. unfold Player.handleNextTrack, Player.playlist_length. cbn.
  destruct (Z.eqb_spec (Z.of_nat (length pl)) 0); [lia|].
  rewrite Z.rem_mod_nonneg by lia.
  rewrite playTrack_valid; [reflexivity|].
  unfold Player.playlist_length. cbn. apply Z.mod_pos_bound. lia.
Qed.

Lemma handlePrevTrack_selected (pl : list Player.Track) (cur : Z) (open : bool) :
  0 <= cur < Z.of_nat (length pl) ->
  Player.handlePrevTrack (Player.mk_state pl (Some cur) open)
  = Player.mk_state pl (Some ((cur - 1 + Z.of_nat (length pl)) mod Z.of_nat (length pl)))
      open.
Proof.
  intros H. unfold Player.handlePrevTrack, Player.playlist_length. cbn.
  destruct (Z.eqb_spec (Z.of_nat (length pl)) 0); [lia|].
  rewrite Z.rem_mod_nonneg by lia.
  rewrite playTrack_valid; [reflexivity|].
  unfold Player.playlist_length. cbn. apply Z.mod_pos_bound. lia.
Qed.

Lemma next_then_prev_index (cur len : Z) :
  0 <= cur < len -> ((cur + 1) mod len - 1 + len) mod len = cur.
Proof.
  intros H. destruct (Z.eq_dec (cur + 1) len) as [E|E].
  - rewrite E, Z.mod_same by lia. replace (0 - 1 + len) with cur by lia.
    apply Z.mod_small. lia.
  - rewrite (Z.mod_small (cur + 1)) by lia.
    replace (cur + 1 - 1 + len) with (cur + 1 * len) by lia.
    rewrite Z.mod_add by lia. apply Z.mod_small. lia.
Qed.

Lemma prev_then_next_index (cur len : Z) :
  0 <= cur < len -> ((cur - 1 + len) mod len + 1) mod len = cur.
Proof.
  intros H. destruct (Z.eq_dec cur 0) as [->|E].
  - rewrite (Z.mod_small (0 - 1 + len)) by lia.
    replace (0 - 1 + len + 1) with len by lia. apply Z.mod_same. lia.
  - replace (cur - 1 + len) with (cur - 1 + 1 * len) by lia.
    rewrite Z.mod_add by lia. rewrite (Z.mod_small (cur - 1)) by lia.
    replace (cur - 1 + 1) with cur by lia. apply Z.mod_small. lia.
Qed.

(** X10: with a valid selection, "next" and "previous" undo each other. *)
Theorem next_prev_inverse (st : Player.state) :
  Player.index_in_range st ->
  Player.handlePrevTrack (Player.handleNextTrack st) = st
  /\ Player.handleNextTrack (Player.handlePrevTrack st) = st.
Proof.
  destruct st as [pl [cur|] open]; unfold Player.index_in_range, Player.playlist_length;
    cbn; intros H.
  - assert (Hlen : 0 < Z.of_nat (length pl)) by lia. split.
    + rewrite handleNextTrack_selected by exact H.
      rewrite handlePrevTrack_selected by now apply Z.mod_pos_bound.
      now rewrite next_then_prev_index.
    + rewrite handlePrevTrack_selected by exact H.
      rewrite handleNextTrack_selected by now apply Z.mod_pos_bound.
      now rewrite prev_then_next_index.
  - unfold Player.handleNextTrack, Player.handlePrevTrack. cbn.
    destruct (Player.playlist_length _ =? 0); cbn;
      destruct (Player.playlist_length _ =? 0); auto.
Qed.



(** X12: applying an artwork URL changes the artwork of the current track and
    nothing else: the other tracks, the playlist's length and the selection
    stay, and the dialog is closed. *)
Theorem handleApplyArt_changes_only_artwork
  (st : Player.state) (url : str) (i : Z) (track : Player.Track) :
  Player.currentTrackIndex st = Some i ->
  Player.currentTrack st = Some track ->
  Player.currentTrack (Player.handleApplyArt st url)
  = Some (Player.set_albumArtUrl track (Some url))
  /\ (forall j, j <> i ->
                array_get (Player.playlist (Player.handleApplyArt st url)) j
                = array_get (Player.playlist st) j)
  /\ length (Player.playlist (Player.handleApplyArt st url))
     = length (Player.playlist st)
  /\ Player.currentTrackIndex (Player.handleApplyArt st url) = Some i
  /\ Player.isArtModalOpen (Player.handleApplyArt st url) = false.
Proof.
  intros Hi Ht. unfold Player.currentTrack, Player.handleApplyArt in *.
  rewrite Hi in *. rewrite Ht. cbn.
  pose proof (array_get_some _ _ _ _ Ht) as Hr.
  repeat split.
  - unfold array_get. destruct (Z.ltb_spec i 0); [lia|].
    apply array_set_same. lia.
  - intros j Hj. unfold array_get. destruct (Z.ltb_spec j 0); [reflexivity|].
    apply array_set_other. lia.
  - apply array_set_length.
Qed.

Lemma startsWith_spec (s prefix : str) :
  startsWith s prefix = true <-> exists rest, s = prefix ++ rest.
Proof.
  unfold startsWith. rewrite str_eqb_true. split.
  - intros H. exists (skipn (length prefix) s).
    rewrite <- H at 1. symmetry. apply firstn_skipn.
  - intros [rest ->]. rewrite firstn_app, Nat.sub_diag, firstn_all.
    cbn. apply app_nil_r.
Qed.

Lemma revoked_urls_spec (tracks : list Player.Track) (u : str) :
  In u (Player.revoked_urls tracks) <->
  startsWith u Literal.blob_colon = true
  /\ exists t, In t tracks
               /\ (Player.blobUrl t = u \/ Player.albumArtUrl t = Some u).
Proof.
  unfold Player.revoked_urls. rewrite in_flat_map. split.
  - intros [t [Hin Hu]]. apply in_app_iff in Hu. destruct Hu as [Hu|Hu].
    + destruct (startsWith (Player.blobUrl t) Literal.blob_colon) eqn:E;
        [|destruct Hu].
      destruct Hu as [<-|[]]. split; [exact E|]. exists t. auto.
    + destruct (Player.albumArtUrl t) as [url|] eqn:Ea; [|destruct Hu].
      destruct (truthy (Str url) && startsWith url Literal.blob_colon) eqn:E;
        [|destruct Hu].
      destruct Hu as [<-|[]]. apply andb_true_iff in E. destruct E as [_ E].
      split; [exact E|]. exists t. auto.
  - intros [Hb [t [Hin [Hu|Hu]]]]; exists t; (split; [exact Hin|]);
      apply in_app_iff.
    + left. rewrite Hu, Hb. now left.
    + right. rewrite Hu.
      assert (Ht : truthy (Str u) = true).
      { apply startsWith_spec in Hb. destruct Hb as [rest ->]. reflexivity. }
      rewrite Ht, Hb. now left.
Qed.

(** X13: the cleanup revokes exactly the blob URLs of the playlist: a URL is
    passed to [URL.revokeObjectURL] if and only if it starts with "blob:" and
    is the audio URL or the artwork URL of one of the tracks. *)
Theorem revoked_urls_exactly_blobs (tracks : list Player.Track) (u : str) :
  In u (Player.revoked_urls tracks) <->
  startsWith u Literal.blob_colon = true
  /\ exists t, In t tracks
               /\ (Player.blobUrl t = u \/ Player.albumArtUrl t = Some u).
Proof. apply revoked_urls_spec. Qed.

(** * The artwork dialog *)

Lemma modal_step_preview (st st' : SetArtworkModal.state) :
  SetArtworkModal.step st st' ->
  preview_ok (SetArtworkModal.previewUrl st) ->
  preview_ok (SetArtworkModal.previewUrl st').
Proof.
  intros Hs H. destruct Hs as [st|st v|st|st|st]; cbn; try exact H.
  - now left.
  - unfold SetArtworkModal.onChange.
    destruct (str_eqb v (SetArtworkModal.imageUrl st)); exact H.
  - unfold SetArtworkModal.timer_fired.
    destruct (startsWith (SetArtworkModal.imageUrl st) Literal.http) eqn:E.
    + now right.
    + destruct (truthy (Str (SetArtworkModal.imageUrl st))); now left.
Qed.

Lemma modal_reachable_preview (st : SetArtworkModal.state) :
  SetArtworkModal.reachable st -> preview_ok (SetArtworkModal.previewUrl st).
Proof.
  induction 1 as [|st st' _ IH Hs]; [now left|].
  now apply (modal_step_preview st).
Qed.

(** X14: whatever is typed, and in whatever order the timer and the image
    events arrive, the preview URL is empty or starts with "http"; so this
    holds of every URL that "Use This Image" hands to [onApply]. *)
Theorem applied_artwork_is_http (st : SetArtworkModal.state) (url : str) :
  SetArtworkModal.reachable st ->
  SetArtworkModal.use_this_image st = Some url ->
  url = [] \/ startsWith url Literal.http = true.
Proof.
  intros Hr Hu. apply modal_reachable_preview in Hr.
  unfold SetArtworkModal.use_this_image in Hu.
  destruct (SetArtworkModal.isValidImage st); [|discriminate].
  injection Hu as <-. exact Hr.
Qed.

(** X15: an artwork URL that came from the dialog is never revoked by the
    playlist's cleanup, whatever tracks the playlist holds. *)
Theorem applied_artwork_never_revoked
  (st : SetArtworkModal.state) (url : str) (tracks : list Player.Track) :
  SetArtworkModal.reachable st ->
  SetArtworkModal.use_this_image st = Some url ->
  ~ In url (Player.revoked_urls tracks).
Proof.
  intros Hr Hu Hin. apply modal_reachable_preview in Hr.
  unfold SetArtworkModal.use_this_image in Hu.
  destruct (SetArtworkModal.isValidImage st); [|discriminate].
  injection Hu as Hu. rewrite Hu in Hr.
  apply revoked_urls_spec in Hin. destruct Hin as [Hb _].
  apply startsWith_spec in Hb. destruct Hb as [rest ->].
  destruct Hr as [Hr|Hr]; [discriminate|].
  apply startsWith_spec in Hr. destruct Hr as [rest' Hr]. discriminate.
Qed.

(** * The time display *)

Lemma padStart_long (s : str) (n : nat) (p : str) :
  (n <= length s)%nat -> padStart s n p = s.
Proof.
  intros H. unfold padStart. apply Nat.leb_le in H. now rewrite H.
Qed.

Lemma digits_of_uint_length (d : Decimal.uint) :
  length (digits_of_uint d) = Decimal.nb_digits d.
Proof. induction d; cbn; congruence. Qed.

Lemma digits_of_uint_inj (d d' : Decimal.uint) :
  digits_of_uint d = digits_of_uint d' -> d = d'.
Proof.
  revert d'. induction d; intros [ | | | | | | | | | | ]; cbn; intros H;
    try discriminate; try reflexivity; injection H as H; f_equal; auto.
Qed.

Lemma integer_toString_inj (a b : Z) :
  0 <= a -> 0 <= b -> integer_toString a = integer_toString b -> a = b.
Proof.
  unfold integer_toString. intros Ha Hb H.
  apply digits_of_uint_inj, DecimalN.Unsigned.to_uint_inj in H. lia.
Qed.

(** Below 100 the padded digits are the tens and the units. *)
Lemma two_digits (n : Z) :
  0 <= n < 100 ->
  padStart (integer_toString n) 2 Literal.zero = [48 + n / 10; 48 + n mod 10].
Proof.
  intros H.
  assert (Hall : forallb
            (fun k => str_eqb (padStart (integer_toString k) 2 Literal.zero)
                        [48 + k / 10; 48 + k mod 10])
            (map Z.of_nat (seq 0 100)) = true) by (vm_compute; reflexivity).
  rewrite forallb_forall in Hall. apply str_eqb_true, Hall.
  apply in_map_iff. exists (Z.to_nat n). split; [lia|].
  apply in_seq. lia.
Qed.

(** From 100 on there are at least three digits. *)
Lemma three_digits (n : Z) : 100 <= n -> (3 <= length (integer_toString n))%nat.
Proof.
  intros H. unfold integer_toString. rewrite digits_of_uint_length.
  pose proof (DecimalN.Unsigned.of_to (Z.to_N n)) as Hof.
  destruct (N.to_uint (Z.to_N n)) as [|u|u|u|u|u|u|u|u|u|u];
    try (cbn in Hof; lia);
    destruct u as [|u|u|u|u|u|u|u|u|u|u]; try (cbn in Hof; lia);
    destruct u as [|u|u|u|u|u|u|u|u|u|u]; try (cbn in Hof; lia);
    cbn; lia.
Qed.

Lemma padded_length (n : Z) :
  0 <= n ->
  (2 <= length (padStart (integer_toString n) 2 Literal.zero))%nat
  /\ (length (padStart (integer_toString n) 2 Literal.zero) = 2%nat <-> n < 100).
Proof.
  intros H. destruct (Z.lt_ge_cases n 100) as [Hlt|Hge].
  - rewrite two_digits by lia. cbn. split; [lia|]. split; [intros; lia | reflexivity].
  - pose proof (three_digits n Hge) as H3.
    rewrite padStart_long by lia. split; [lia|]. split; intros; lia.
Qed.

Lemma padded_inj (a b : Z) :
  0 <= a -> 0 <= b ->
  padStart (integer_toString a) 2 Literal.zero
  = padStart (integer_toString b) 2 Literal.zero ->
  a = b.
Proof.
  intros Ha Hb H.
  pose proof (padded_length a Ha) as [_ La]. pose proof (padded_length b Hb) as [_ Lb].
  rewrite H in La.
  destruct (Z.lt_ge_cases a 100) as [Hlt|Hge].
  - assert (Hb' : b < 100) by tauto.
    rewrite !two_digits in H by lia.
    assert (H1 : 48 + a / 10 = 48 + b / 10) by congruence.
    assert (H2 : 48 + a mod 10 = 48 + b mod 10) by congruence.
    rewrite (Z.div_mod a 10), (Z.div_mod b 10) by lia. lia.
  - assert (Hb' : ~ b < 100) by (intros Hb'; apply Lb in Hb'; apply La in Hb'; lia).
    pose proof (three_digits a Hge) as H3a.
    pose proof (three_digits b ltac:(lia)) as H3b.
    rewrite !padStart_long in H by lia.
    now apply integer_toString_inj.
Qed.

Lemma app_inj_same_length (A : Type) (p p' t t' : list A) :
  length t = length t' -> p ++ t = p' ++ t' -> p = p' /\ t = t'.
Proof.
  intros Hl H.
  assert (Hp : length p = length p').
  { apply (f_equal (@length A)) in H. rewrite !length_app in H. lia. }
  revert p' Hp H. induction p as [|x p IH]; intros [|x' p'] Hp H;
    cbn in *; try discriminate; [now split|].
  injection H as -> H. injection Hp as Hp.
  destruct (IH p' Hp H) as [-> ->]. now split.
Qed.

Lemma formatTime_finite (x : QArith_base.Q) :
  QArith_base.Qle (QArith_base.inject_Z 0) x ->
  0 <= Qround.Qfloor x
  /\ formatTime (Finite x)
     = padStart (integer_toString (Qround.Qfloor x / 60)) 2 Literal.zero
       ++ 58 :: padStart (integer_toString (Qround.Qfloor x mod 60)) 2 Literal.zero.
Proof.
  intros H.
  assert (Hn : 0 <= Qround.Qfloor x).
  { rewrite <- (Qround.Qfloor_Z 0). now apply Qround.Qfloor_resp_le. }
  split; [exact Hn|]. unfold formatTime.
  destruct (QArith_base.Qlt_le_dec x (QArith_base.inject_Z 0)) as [Hlt|_].
  - exfalso. apply (QArith_base.Qlt_irrefl x).
    eapply QArith_base.Qlt_le_trans; eauto.
  - cbv zeta. rewrite <- Qround.Zdiv_Qdiv, Z.rem_mod_nonneg by lia. reflexivity.
Qed.


(** X17: two non-negative times below 2^53 are shown alike only when they
    agree in their whole seconds. *)
Theorem formatTime_injective (x y : QArith_base.Q) :
  QArith_base.Qle (QArith_base.inject_Z 0) x ->
  QArith_base.Qle (QArith_base.inject_Z 0) y ->
  Qround.Qfloor x < 2 ^ 53 -> Qround.Qfloor y < 2 ^ 53 ->
  formatTime (Finite x) = formatTime (Finite y) ->
  Qround.Qfloor x = Qround.Qfloor y.
Proof.
  intros Hx Hy _ _ H.
  destruct (formatTime_finite x Hx) as [Hn Ex].
  destruct (formatTime_finite y Hy) as [Hm Ey].
  rewrite Ex, Ey in H. clear Ex Ey.
  set (n := Qround.Qfloor x) in *. set (m := Qround.Qfloor y) in *.
  assert (Hsn : 0 <= n mod 60 < 60) by (apply Z.mod_pos_bound; lia).
  assert (Hsm : 0 <= m mod 60 < 60) by (apply Z.mod_pos_bound; lia).
  assert (Hqn : 0 <= n / 60) by (apply Z.div_pos; lia).
  assert (Hqm : 0 <= m / 60) by (apply Z.div_pos; lia).
  apply app_inj_same_length in H.
  - destruct H as [Hmin Hsec].
    apply padded_inj in Hmin; [|lia|lia].
    assert (Hsec' : padStart (integer_toString (n mod 60)) 2 Literal.zero
                    = padStart (integer_toString (m mod 60)) 2 Literal.zero)
      by congruence.
    apply padded_inj in Hsec'; [|lia|lia].
    rewrite (Z.div_mod n 60), (Z.div_mod m 60) by lia. lia.
  - rewrite !two_digits by lia. reflexivity.
Qed.

(** * Runs of the further properties *)

Definition sample_track (name : str) : Player.Track :=
  Player.mk_Track name (Literal.blob_colon ++ name) None name [] []
    (Finite (QArith_base.inject_Z 0)) (Finite (QArith_base.inject_Z 0))
    (Finite (QArith_base.inject_Z 0)) (Finite (QArith_base.inject_Z 0))
    (Finite (QArith_base.inject_Z 0)).

Definition sample_playlist : list Player.Track :=
  [sample_track [0x41]; sample_track [0x42]; sample_track [0x43]].

Definition sample_player : Player.state :=
  Player.mk_state sample_playlist (Some 2) true.

(** A file whose ID3v2.4 title is empty and whose ID3v2.3 title is "Song". *)
Definition sample_metadata : metadata :=
  mk_metadata
    (fun tagType =>
       if str_eqb tagType Literal.ID3v2_4
       then Some [mk_native_tag Literal.TIT2 (Primitive (Str []))]
       else if str_eqb tagType Literal.ID3v2_3
       then Some [mk_native_tag Literal.TPE1 (Primitive (Str [0x58]));
                  mk_native_tag Literal.TIT2 (Primitive (Str [0x53; 0x6F; 0x6E; 0x67]))]
       else None)
    undefined undefined undefined.

Definition sample_dialog : SetArtworkModal.state :=
  SetArtworkModal.handleImageLoad
    (SetArtworkModal.timer_fired
       (SetArtworkModal.onChange SetArtworkModal.initial
          (Literal.http ++ [0x3A; 0x2F; 0x2F; 0x78]))).

Lemma sample_dialog_reachable : SetArtworkModal.reachable sample_dialog.
Proof.
  unfold sample_dialog.
  eapply SetArtworkModal.reachable_step; [|apply SetArtworkModal.step_load].
  eapply SetArtworkModal.reachable_step; [|apply SetArtworkModal.step_timer].
  eapply SetArtworkModal.reachable_step; [|apply SetArtworkModal.step_onChange].
  apply SetArtworkModal.reachable_initial.
Defined.

Lemma sample_player_reachable :
  Player.reachable (Player.playTrack (Player.playlist_loaded Player.initial sample_playlist) 2).
Proof.
  eapply Player.reachable_step; [|apply Player.step_playTrack].
  eapply Player.reachable_step; [|apply Player.step_loaded; discriminate].
  apply Player.reachable_initial.
Defined.

Lemma repair_ascii_unchanged_run :
  getBestEffortDecodedString index_jis0208_sample (Str [0x48; 0x69]) = Value (Str [0x48; 0x69]).
Proof.
  apply (repair_ascii_unchanged index_jis0208_sample [0x48; 0x69]).
  repeat constructor; discriminate.
Defined.

Lemma repair_twice_after_step1_run :
  repair_twice index_jis0208_sample (Str [0x4800; 0x6900]) = Value (Str [0x48; 0x69]).
Proof.
  apply (repair_twice_after_step1 index_jis0208_sample [0x4800; 0x6900]).
  - discriminate.
  - repeat constructor; cbn; lia.
Defined.

Lemma getNativeTag_priority_run :
  getNativeTag sample_metadata Literal.TIT2 = Str [0x53; 0x6F; 0x6E; 0x67].
Proof.
  apply (getNativeTag_priority sample_metadata Literal.TIT2
           [Literal.ID3v2_4] Literal.ID3v2_3 [Literal.ID3v2_2]
           (mk_native_tag Literal.TIT2 (Primitive (Str [0x53; 0x6F; 0x6E; 0x67])))).
  - reflexivity.
  - intros d t [<-|[]] [tags [En [Ef Et]]].
    vm_compute in En. injection En as <-. vm_compute in Ef. injection Ef as <-.
    discriminate Et.
  - eexists. repeat split; reflexivity.
Defined.

Lemma ascii_native_title_kept_run :
  track_title index_jis0208_sample sample_metadata = Value (Str [0x53; 0x6F; 0x6E; 0x67]).
Proof.
  apply (ascii_native_title_kept index_jis0208_sample sample_metadata).
  - reflexivity.
  - discriminate.
  - repeat constructor; discriminate.
Defined.

Lemma current_index_always_valid_run :
  0 <= 2 < Player.playlist_length
             (Player.playTrack (Player.playlist_loaded Player.initial sample_playlist) 2)
  /\ exists track,
       Player.currentTrack
         (Player.playTrack (Player.playlist_loaded Player.initial sample_playlist) 2)
       = Some track.
Proof.
  apply (current_index_always_valid _ sample_player_reachable 2). reflexivity.
Defined.

Lemma next_prev_inverse_run :
  Player.handlePrevTrack (Player.handleNextTrack sample_player) = sample_player
  /\ Player.handleNextTrack (Player.handlePrevTrack sample_player) = sample_player.
Proof.
  apply (next_prev_inverse sample_player). cbn. lia.
Defined.


Lemma handleApplyArt_changes_only_artwork_run :
  Player.currentTrack (Player.handleApplyArt sample_player Literal.http)
  = Some (Player.set_albumArtUrl (sample_track [0x43]) (Some Literal.http)).
Proof.
  apply (handleApplyArt_changes_only_artwork sample_player Literal.http 2
           (sample_track [0x43])); reflexivity.
Defined.

Lemma applied_artwork_is_http_run :
  Literal.http ++ [0x3A; 0x2F; 0x2F; 0x78] = []
  \/ startsWith (Literal.http ++ [0x3A; 0x2F; 0x2F; 0x78]) Literal.http = true.
Proof.
  apply (applied_artwork_is_http sample_dialog _ sample_dialog_reachable).
  reflexivity.
Defined.

Lemma applied_artwork_never_revoked_run :
  ~ In (Literal.http ++ [0x3A; 0x2F; 0x2F; 0x78]) (Player.revoked_urls sample_playlist).
Proof.
  apply (applied_artwork_never_revoked sample_dialog _ sample_playlist
           sample_dialog_reachable).
  reflexivity.
Defined.


Lemma formatTime_injective_run :
  Qround.Qfloor (QArith_base.Qmake 151 2) = Qround.Qfloor (QArith_base.Qmake 303 4).
Proof.
  apply (formatTime_injective (QArith_base.Qmake 151 2) (QArith_base.Qmake 303 4)).
  - unfold QArith_base.Qle. cbn. lia.
  - unfold QArith_base.Qle. cbn. lia.
  - reflexivity.
  - reflexivity.
  - reflexivity.
Defined.
